(** * minio-xl: command registration, command-not-found recovery,
      diagnostics snapshot and filesystem-type lookup

    A shallow embedding of [main.go] (package [main]) and of the
    filesystem-type table of package [disk], with the properties the
    specification states about them. *)

From Stdlib Require Import ZArith String Ascii List Lia Permutation.
From stdpp Require Import gmap strings list fin_maps.

Local Open Scope string_scope.
Local Open Scope Z_scope.
Local Open Scope list_scope.

(** ** Go's [strconv] formatting, as far as [getFSType] uses it *)

Module strconv.

(** [const digits = "0123456789abcdefghijklmnopqrstuvwxyz"] *)
Definition digits : string := "0123456789abcdefghijklmnopqrstuvwxyz".

(** [digits[d]] *)
Definition digit (d : Z) : ascii :=
  match String.get (Z.to_nat d) digits with
  | Some c => c
  | None => "0"%char
  end.

(** Conversion [uint64(i)] of an [int64]: two's complement wrap-around. *)
Definition uint64 (i : Z) : Z := i mod 2 ^ 64.

(** [func isPowerOfTwo(x int) bool { return x&(x-1) == 0 }] *)
Definition isPowerOfTwo (x : Z) : bool := Z.land x (x - 1) =? 0.

(** The loop of [formatBits] for a base that is a power of two:
    [for u >= b { i--; a[i] = digits[uint(u)&m]; u >>= shift }]
    followed by [i--; a[i] = digits[uint(u)]].  The buffer [a] is filled
    from its end, so the digits are consed in front of [acc].  The buffer
    has room for 64 digits, which bounds the number of iterations. *)
Fixpoint shiftLoop (fuel : nat) (b shift m u : Z) (acc : string) : string :=
  match fuel with
  | O => String (digit (Z.land u m)) acc
  | S fuel' =>
      if b <=? u
      then shiftLoop fuel' b shift m (Z.shiftr u shift)
                     (String (digit (Z.land u m)) acc)
      else String (digit u) acc
  end.

(** The general loop of [formatBits]:
    [for u >= b { i--; q := u / b; a[i] = digits[uint(u-q*b)]; u = q }]. *)
Fixpoint divLoop (fuel : nat) (b u : Z) (acc : string) : string :=
  match fuel with
  | O => String (digit (u mod b)) acc
  | S fuel' =>
      if b <=? u
      then let q := u / b in
           divLoop fuel' b q (String (digit (u - q * b)) acc)
      else String (digit u) acc
  end.

(** [formatBits(nil, u, base, neg, false)]: the digits of [u] (negated as
    a [uint64] when [neg]) in [base], with a leading minus sign when
    [neg].  The shift of a power of two is its number of trailing zero
    bits, which is its binary logarithm. *)
Definition formatBits (u : Z) (base : Z) (neg : bool) : string :=
  let u := if neg then uint64 (- u) else u in
  let body :=
    if isPowerOfTwo base
    then shiftLoop 64 base (Z.log2 base) (base - 1) u ""
    else divLoop 64 base u "" in
  if neg then String "-"%char body else body.

(** [strconv.FormatInt(i, base)] for an [int64] [i]; the table of small
    decimal numbers that Go consults first holds the same digits. *)
Definition FormatInt (i : Z) (base : Z) : string :=
  formatBits (uint64 i) base (i <? 0).

(** [strconv.Itoa(i)] is [FormatInt(int64(i), 10)]. *)
Definition Itoa (i : Z) : string := FormatInt i 10.

(** The value of a lowercase hexadecimal digit. *)
Definition hexVal (c : ascii) : option Z :=
  match String.index 0 (String c "") "0123456789abcdef" with
  | Some i => Some (Z.of_nat i)
  | None => None
  end.

(** The number written by lowercase hexadecimal digits after [acc]. *)
Fixpoint parseDigits (s : string) (acc : Z) : option Z :=
  match s with
  | EmptyString => Some acc
  | String c s' =>
      match hexVal c with
      | Some d => parseDigits s' (acc * 16 + d)
      | None => None
      end
  end.

(** The integer written by a lowercase hexadecimal numeral with an optional
    minus sign: the reading that [FormatInt(i, 16)] is a rendering for. *)
Definition parseHex (s : string) : option Z :=
  match s with
  | String "-"%char body => option_map Z.opp (parseDigits body 0)
  | _ => parseDigits s 0
  end.

End strconv.

(** ** Package [disk]: filesystem types *)

Module disk.

(** The entries of [fsType2StringMap], in source order. *)
Definition fsTypeTable : list (string * string) :=
  [ ("1021994",  "TMPFS");
    ("137d",     "EXT");
    ("4244",     "HFS");
    ("4d44",     "MSDOS");
    ("52654973", "REISERFS");
    ("5346544e", "NTFS");
    ("58465342", "XFS");
    ("61756673", "AUFS");
    ("6969",     "NFS");
    ("ef51",     "EXT2OLD");
    ("ef53",     "EXT4");
    ("f15f",     "ecryptfs") ].

(** [fsType2StringMap] - list of filesystems supported by xl on linux. *)
Definition fsType2StringMap : gmap string string := list_to_map fsTypeTable.

(** [getFSType] - get filesystem type. *)
Definition getFSType (fsType : Z) : string :=
  let fsTypeHex := strconv.FormatInt fsType 16 in
  match fsType2StringMap !! fsTypeHex with
  | None => "UNKNOWN"
  | Some fsTypeString => fsTypeString
  end.

(** The values an [int64] can take. *)
Definition int64_range (z : Z) : Prop := - 2 ^ 63 <= z < 2 ^ 63.

End disk.

(** ** Go values and errors *)

(** A value of interface type [interface{}] with its dynamic type. *)
Inductive iface : Type :=
| IString (s : string)
| IInt (n : Z)
| INil.

(** The type assertion [value.(string)]: the string held by the interface
    value, or a run-time panic ([None]) when its dynamic type is another. *)
Definition assertString (value : iface) : option string :=
  match value with
  | IString s => Some s
  | _ => None
  end.

(** A Go call returning [(A, error)]; an [error] is shown by its text. *)
Inductive result (A : Type) : Type :=
| Ok (a : A)
| Err (err : string).
Arguments Ok {A} a.
Arguments Err {A} err.

(** The line feed of Go's ["\n"]. *)
Definition nl : string := String (ascii_of_nat 10) "".

(** ** The prefix trie *)

Module trie.

Section Trie.
Context {V : Type}.

(** Modelled from the spec: the trie behind [commandsTree], whose package
    [main.go] only calls.  A TrieNode "owns a mapping from single characters to
    child TrieNodes (keys unique), plus an optional terminal marker
    carrying the associated" value.  Children are kept in the order in
    which they were created, which is the stable traversal order; a
    character is a byte of the key. *)
#[warnings="-register-all"] Inductive Node : Type :=
| mkNode (terminal : option V) (children : list (ascii * Node)).

(** Modelled from the spec: the "optional terminal marker" of a node. *)
Definition terminal (n : Node) : option V :=
  match n with mkNode t _ => t end.

(** Modelled from the spec: the children a node owns. *)
Definition children (n : Node) : list (ascii * Node) :=
  match n with mkNode _ cs => cs end.

(** Modelled from the spec: the root of a trie without keys. *)
Definition NewTrie : Node := mkNode None [].

(** Modelled from the spec: the child of a node under character [c] in
    its "mapping from single characters to child TrieNodes", if any. *)
Fixpoint lookupChild (c : ascii) (cs : list (ascii * Node)) : option Node :=
  match cs with
  | [] => None
  | (c', n) :: cs' => if Ascii.eqb c c' then Some n else lookupChild c cs'
  end.

(** Modelled from the spec: replace the child under [c] by [f] of it,
    "creating TrieNodes as needed": a missing child is created empty,
    after the others. *)
Fixpoint updateChild (c : ascii) (f : Node -> Node)
         (cs : list (ascii * Node)) : list (ascii * Node) :=
  match cs with
  | [] => [(c, f NewTrie)]
  | (c', n) :: cs' =>
      if Ascii.eqb c c' then (c', f n) :: cs'
      else (c', n) :: updateChild c f cs'
  end.

(** Modelled from the spec: [Insert(key, value)] "inserts key character
    by character from the root, creating TrieNodes as needed; marks the
    final node terminal with value.  Re-inserting an existing key
    overwrites its terminal value". *)
Fixpoint Insert (key : string) (value : V) (n : Node) : Node :=
  match key with
  | EmptyString => mkNode (Some value) (children n)
  | String c rest =>
      mkNode (terminal n) (updateChild c (Insert rest value) (children n))
  end.

(** Modelled from the spec: the node reached from [n] by "consuming
    prefix one character at a time", if every character has a matching
    child. *)
Fixpoint findNode (prefix : string) (n : Node) : option Node :=
  match prefix with
  | EmptyString => Some n
  | String c rest =>
      match lookupChild c (children n) with
      | None => None
      | Some child => findNode rest child
      end
  end.

(** Modelled from the spec: "a traversal of the subtree collecting every
    terminal value reachable beneath it": the node's own value, then the
    subtrees of its children in order. *)
Fixpoint Walk (n : Node) : list V :=
  match n with
  | mkNode t cs =>
      (match t with Some v => [v] | None => [] end)
        ++ (fix walkAll (cs : list (ascii * Node)) : list V :=
              match cs with
              | [] => []
              | (_, child) :: cs' => Walk child ++ walkAll cs'
              end) cs
  end.

(** Modelled from the spec: the traversal of a list of children, as [Walk]
    runs it. *)
Fixpoint walkAll (cs : list (ascii * Node)) : list V :=
  match cs with
  | [] => []
  | (_, child) :: cs' => Walk child ++ walkAll cs'
  end.

(** Modelled from the spec: [PrefixMatch(prefix)] "walks from the root
    consuming prefix one character at a time; if any character has no
    matching child, returns an empty sequence.  Otherwise, from the
    node reached, performs a traversal of the subtree". *)
Definition PrefixMatch (prefix : string) (n : Node) : list V :=
  match findNode prefix n with
  | None => []
  | Some node => Walk node
  end.

(** The value stored under [key], found by stepping down from [n]. *)
Definition Find (key : string) (n : Node) : option V :=
  match findNode key n with
  | None => None
  | Some node => terminal node
  end.

(** The children of every node have "keys unique". *)
Fixpoint wf (n : Node) : Prop :=
  match n with
  | mkNode _ cs =>
      List.NoDup (map fst cs)
      /\ (fix wfAll (cs : list (ascii * Node)) : Prop :=
            match cs with
            | [] => True
            | (_, child) :: cs' => wf child /\ wfAll cs'
            end) cs
  end.

(** [wf] on a list of children. *)
Fixpoint wfAll (cs : list (ascii * Node)) : Prop :=
  match cs with
  | [] => True
  | (_, child) :: cs' => wf child /\ wfAll cs'
  end.

End Trie.

Arguments Node V : clear implicits.

End trie.

(** ** Package [main]: registry, process state and effects *)

(** A [cli.Command] descriptor; its action handler is opaque to this
    development and left out. *)
Record Command : Type := mkCommand {
  Name : string;
  Usage : string;
  Description : string
}.

(** The scope of a flag. *)
Inductive scope : Type :=
| GlobalScope
| CommandScope (command : string).

(** A [cli.Flag] descriptor. *)
Record Flag : Type := mkFlag {
  FlagName : string;
  FlagScope : scope;
  FlagUsage : string
}.

(** The package-level variables [commands], [flags] and [commandsTree]. *)
Record Registry : Type := mkRegistry {
  commands : list Command;
  flags : list Flag;
  commandsTree : trie.Node iface
}.

(** The registry before any registration: empty lists and a new trie. *)
Definition emptyRegistry : Registry :=
  {| commands := []; flags := []; commandsTree := trie.NewTrie |}.

(** A registration conflict. *)
Inductive ConfigError : Type :=
| DuplicateCommand (name : string)
| DuplicateFlag (name : string).

(** What the process asks of its environment, in the order it asks. *)
Inductive Event : Type :=
| EvUserCurrent
| EvGeteuid
| EvCheckRuntime.

(** The state a run of the process can change or leave a mark on. *)
Record World : Type := mkWorld {
  registry : Registry;
  stderr : list string;
  trace : list Event
}.

(** The state of the process when [init] starts. *)
Definition initialWorld : World :=
  {| registry := emptyRegistry; stderr := []; trace := [] |}.

(** How a computation ends: with a value, with the process terminated
    under an exit status, with a configuration error reported at the top
    level, or with a run-time panic. *)
Inductive Outcome (A : Type) : Type :=
| Done (a : A)
| Exited (code : Z)
| Failed (err : ConfigError)
| Panicked.
Arguments Done {A} a.
Arguments Exited {A} code.
Arguments Failed {A} err.
Arguments Panicked {A}.

(** Computations over the process state that may end the process. *)
Definition M (A : Type) : Type := World -> Outcome A * World.

(** A computation that only returns [a]. *)
Definition ret {A} (a : A) : M A := fun w => (Done a, w).

(** Sequencing: [k] runs on the value of [m], unless [m] ended the
    process. *)
Definition bind {A B} (m : M A) (k : A -> M B) : M B :=
  fun w =>
    match m w with
    | (Done a, w') => k a w'
    | (Exited code, w') => (Exited code, w')
    | (Failed err, w') => (Failed err, w')
    | (Panicked, w') => (Panicked, w')
    end.

Notation "x <- m ;; k" := (bind m (fun x => k))
  (at level 100, m at next level, right associativity).
Notation "m ;;; k" := (bind m (fun _ => k))
  (at level 100, right associativity).

(** Reading and writing the package-level variables. *)
Definition getRegistry : M Registry := fun w => (Done (registry w), w).

Definition putRegistry (r : Registry) : M unit :=
  fun w => (Done tt, {| registry := r; stderr := stderr w; trace := trace w |}).

(** A question to the environment, recorded in the trace. *)
Definition emit (ev : Event) : M unit :=
  fun w => (Done tt, {| registry := registry w; stderr := stderr w;
                        trace := trace w ++ [ev] |}).

(** A run-time panic. *)
Definition panic {A} : M A := fun w => (Panicked, w).

(** A configuration error, reported at the top level. *)
Definition fail {A} (err : ConfigError) : M A := fun w => (Failed err, w).

(** The status of a process ended by a fatal message. *)
Definition fatalExitCode : Z := 1.

(** Modelled from the spec: [Fatalln] is declared elsewhere in the
    package.  A fatal failure "terminates the process with a non-zero
    status and a human-readable message on the error stream". *)
Definition Fatalln {A} (msg : string) : M A :=
  fun w => (Exited fatalExitCode,
            {| registry := registry w; stderr := stderr w ++ [msg +:+ nl];
               trace := trace w |}).

(** Modelled from the spec: [Fatalf] is declared elsewhere in the
    package; it is [Fatalln] without the added line feed, on a message
    already formatted. *)
Definition Fatalf {A} (msg : string) : M A :=
  fun w => (Exited fatalExitCode,
            {| registry := registry w; stderr := stderr w ++ [msg];
               trace := trace w |}).

(** The answers of the operating system and of the Go runtime. *)
Record Env : Type := mkEnv {
  userCurrent : result string;      (* user.Current() *)
  euid : Z;                         (* os.Geteuid() *)
  runtimeSupported : bool;          (* the Go version is a supported one *)
  hostname : result string;         (* os.Hostname() *)
  memAlloc : Z;                     (* memstats.Alloc *)
  memTotalAlloc : Z;                (* memstats.TotalAlloc *)
  memHeapAlloc : Z;                 (* memstats.HeapAlloc *)
  memHeapSys : Z;                   (* memstats.HeapSys *)
  GOOS : string;                    (* runtime.GOOS *)
  GOARCH : string;                  (* runtime.GOARCH *)
  goVersion : string;               (* runtime.Version() *)
  numCPU : Z                        (* runtime.NumCPU() *)
}.

(** Modelled from the spec: [checkGolangRuntimeVersion] is declared
    elsewhere in the package.  "Fatal if the runtime version is below a
    supported minimum"; the words of its message are not fixed there. *)
Definition checkGolangRuntimeVersion (e : Env) : M unit :=
  emit EvCheckRuntime ;;;
  if runtimeSupported e then ret tt
  else Fatalln "Old Golang runtime version detected, please upgrade.".

(** [func init()] *)
Definition init (e : Env) : M unit :=
  emit EvUserCurrent ;;;
  match userCurrent e with
  | Err err =>
      Fatalf ("Unable to obtain user's home directory. " +:+ nl
                +:+ "Error: " +:+ err +:+ nl)
  | Ok _ => ret tt
  end ;;;
  emit EvGeteuid ;;;
  (if euid e =? 0
   then Fatalln "Please run ‘minio’ as a non-root user."
   else ret tt) ;;;
  checkGolangRuntimeVersion e.

(** Whether a command of that name is in the ordered command list. *)
Definition hasCommand (name : string) (r : Registry) : bool :=
  existsb (fun c => String.eqb (Name c) name) (commands r).

(** Whether two scopes are the same. *)
Definition scope_eqb (a b : scope) : bool :=
  match a, b with
  | GlobalScope, GlobalScope => true
  | CommandScope x, CommandScope y => String.eqb x y
  | _, _ => false
  end.

(** Whether a flag of that name is registered at that scope. *)
Definition hasFlag (name : string) (sc : scope) (r : Registry) : bool :=
  existsb (fun f => String.eqb (FlagName f) name && scope_eqb (FlagScope f) sc)
          (flags r).

(** Modelled from the spec: [registerCommand] is declared elsewhere in
    the package.  It "fails (reports a configuration error, not a runtime
    error) if cmd.name already exists.  Appends to the ordered command list
    and inserts cmd.name -> cmd.name into the shared PrefixTrie". *)
Definition registerCommand (command : Command) : M unit :=
  r <- getRegistry ;;
  if hasCommand (Name command) r
  then fail (DuplicateCommand (Name command))
  else putRegistry
         {| commands := commands r ++ [command];
            flags := flags r;
            commandsTree :=
              trie.Insert (Name command) (IString (Name command))
                          (commandsTree r) |}.

(** Modelled from the spec: [registerFlag] is declared elsewhere in the
    package.  It "fails if flag.name collides with an existing flag at the
    same scope.  Appends to the ordered flag list". *)
Definition registerFlag (flag : Flag) : M unit :=
  r <- getRegistry ;;
  if hasFlag (FlagName flag) (FlagScope flag) r
  then fail (DuplicateFlag (FlagName flag))
  else putRegistry
         {| commands := commands r;
            flags := flags r ++ [flag];
            commandsTree := commandsTree r |}.

(** [func findClosestCommands(command string) []string], on the trie held by
    [commandsTree]: the loop appends [value.(string)] for each matched
    value in turn, and panics at the first value that is not a string. *)
Definition findClosestCommands (tree : trie.Node iface) (command : string)
  : option (list string) :=
  fold_left
    (fun closestCommands value =>
       match closestCommands, assertString value with
       | Some cs, Some s => Some (cs ++ [s])
       | _, _ => None
       end)
    (trie.PrefixMatch command tree)
    (Some []).

(** The first line of the message of the command-not-found handler. *)
Definition notFoundHeader (command : string) : string :=
  "‘" +:+ command +:+ "’ is not a minio-xl sub-command. See ‘minio-xl help’.".

(** The message built by the handler from the closest commands. *)
Definition notFoundMessage (command : string) (closestCommands : list string)
  : string :=
  let msg := notFoundHeader command in
  if (0 <? length closestCommands)%nat
  then fold_left (fun msg cmd => msg +:+ "        ‘" +:+ cmd +:+ "’" +:+ nl)
                 closestCommands
                 (msg +:+ nl +:+ nl +:+ "Did you mean one of these?" +:+ nl)
  else msg.

(** The closure assigned to [app.CommandNotFound]. *)
Definition CommandNotFound (command : string) : M unit :=
  r <- getRegistry ;;
  match findClosestCommands (commandsTree r) command with
  | None => panic
  | Some closestCommands => Fatalln (notFoundMessage command closestCommands)
  end.

Section Diagnostics.

(** [humanize.Bytes] of the go-humanize library. *)
Variable humanizeBytes : Z -> string.

(** [func getSystemData() map[string]string] *)
Definition getSystemData (e : Env) : gmap string string :=
  let host := match hostname e with
              | Err _ => ""
              | Ok host => host
              end in
  let mem := "Used: " +:+ humanizeBytes (memAlloc e)
             +:+ " | Allocated: " +:+ humanizeBytes (memTotalAlloc e)
             +:+ " | Used-Heap: " +:+ humanizeBytes (memHeapAlloc e)
             +:+ " | Allocated-Heap: " +:+ humanizeBytes (memHeapSys e) in
  let platform := "Host: " +:+ host +:+ " | OS: " +:+ GOOS e
                  +:+ " | Arch: " +:+ GOARCH e in
  let goruntime := "Version: " +:+ goVersion e +:+ " | CPUs: "
                   +:+ strconv.Itoa (numCPU e) in
  <["PLATFORM" := platform]>
    (<["RUNTIME" := goruntime]>
       (<["MEM" := mem]> ∅)).

End Diagnostics.

(** The declarations of package [main] that [main.go] uses and other
    files of the package hold. *)
Record Decls : Type := mkDecls {
  xlCmd : Command;
  serverCmd : Command;
  controllerCmd : Command;
  versionCmd : Command;
  addressFlag : Flag;
  addressControllerFlag : Flag;
  addressServerRPCFlag : Flag;
  ratelimitFlag : Flag;
  anonymousFlag : Flag;
  certFlag : Flag;
  keyFlag : Flag;
  jsonFlag : Flag
}.

(** The fields of [cli.App] that [registerApp] and [main] set; the help
    template is text only and left out. *)
Record App : Type := mkApp {
  AppName : string;
  HideVersion : bool;
  Author : string;
  AppUsage : string;
  AppFlags : list Flag;
  AppCommands : list Command;
  AppCommandNotFound : string -> M unit;
  ExtraInfo : option (Env -> gmap string string)
}.

(** [func registerApp() *cli.App] *)
Definition registerApp (d : Decls) : M App :=
  (* register all commands *)
  registerCommand (xlCmd d) ;;;
  registerCommand (serverCmd d) ;;;
  registerCommand (controllerCmd d) ;;;
  registerCommand (versionCmd d) ;;;
  (* register all flags *)
  registerFlag (addressFlag d) ;;;
  registerFlag (addressControllerFlag d) ;;;
  registerFlag (addressServerRPCFlag d) ;;;
  registerFlag (ratelimitFlag d) ;;;
  registerFlag (anonymousFlag d) ;;;
  registerFlag (certFlag d) ;;;
  registerFlag (keyFlag d) ;;;
  registerFlag (jsonFlag d) ;;;
  (* set up app *)
  r <- getRegistry ;;
  ret {| AppName := "minio-xl";
         HideVersion := true;
         Author := "Minio.io";
         AppUsage := "Minio Cloud Storage";
         AppFlags := flags r;
         AppCommands := commands r;
         AppCommandNotFound := CommandNotFound;
         ExtraInfo := None |}.

(** [func main()], up to the hand-over to [app.RunAndExitOnError]: the
    application descriptor that the argument parser is started with.  The
    set-up of [probe] before it has no part in the registry. *)
Definition main (humanizeBytes : Z -> string) (d : Decls) : M App :=
  app <- registerApp d ;;
  ret {| AppName := AppName app;
         HideVersion := HideVersion app;
         Author := Author app;
         AppUsage := AppUsage app;
         AppFlags := AppFlags app;
         AppCommands := AppCommands app;
         AppCommandNotFound := AppCommandNotFound app;
         ExtraInfo := Some (getSystemData humanizeBytes) |}.

(** A run of the program: the Go runtime calls [init] and then [main]. *)
Definition program (humanizeBytes : Z -> string) (d : Decls) (e : Env)
  : M App :=
  init e ;;; main humanizeBytes d.

(** ** Invariant of the command trie *)

(** Whether the dynamic type of a value is [string]. *)
Definition isString (value : iface) : bool :=
  match value with
  | IString _ => true
  | _ => false
  end.

(** Every value stored in the trie is a string. *)
Definition stringsOnly (tree : trie.Node iface) : bool :=
  forallb isString (trie.Walk tree).

(** Registration of a list of commands, in order. *)
Fixpoint registerAll (cmds : list Command) : M unit :=
  match cmds with
  | [] => ret tt
  | c :: cmds' => registerCommand c ;;; registerAll cmds'
  end.

(** ** The message of the not-found path, as the specification words it *)

(** One candidate of the "did you mean" list. *)
Definition suggestionLine (cmd : string) : string :=
  "        ‘" +:+ cmd +:+ "’" +:+ nl.

(** The "did you mean" section: its heading and the candidates in order. *)
Definition didYouMean (candidates : list string) : string :=
  nl +:+ nl +:+ "Did you mean one of these?" +:+ nl
     +:+ fold_right String.append "" (map suggestionLine candidates).

(** The state after a fatal message [line] written from state [w]. *)
Definition afterFatal (w : World) (line : string) : World :=
  {| registry := registry w; stderr := stderr w ++ [line]; trace := trace w |}.

(** The steps of [init], in source order. *)
Definition initSteps : list Event := [EvUserCurrent; EvGeteuid; EvCheckRuntime].

(** ** Scenarios *)

(** A command known by its name only. *)
Definition namedCommand (name : string) : Command :=
  {| Name := name; Usage := ""; Description := "" |}.

(** The command names of the not-found scenario. *)
Definition scenarioNames : list string :=
  ["server"; "gateway"; "controller"; "version"].

(** The trie after inserting each name under itself, in order. *)
Definition insertNames (names : list string) (tree : trie.Node iface)
  : trie.Node iface :=
  fold_left (fun t name => trie.Insert name (IString name) t) names tree.

(** All the ways to put [x] into [l]. *)
Fixpoint insertions {A} (x : A) (l : list A) : list (list A) :=
  match l with
  | [] => [[x]]
  | y :: l' => (x :: l) :: map (cons y) (insertions x l')
  end.

(** All the orders of the elements of [l]. *)
Fixpoint orders {A} (l : list A) : list (list A) :=
  match l with
  | [] => [[]]
  | x :: l' => flat_map (insertions x) (orders l')
  end.

(** The not-found scenario on the trie built from [names], decided. *)
Definition scenarioHolds (names : list string) : bool :=
  let tree := insertNames names trie.NewTrie in
  bool_decide (findClosestCommands tree "contro" = Some ["controller"])
  && bool_decide (findClosestCommands tree "zzz" = Some [])
  && match findClosestCommands tree "" with
     | Some all => bool_decide (all ≡ₚ scenarioNames)
     | None => false
     end.

(** An instance of the declarations [main.go] relies on. *)
Definition exampleDecls : Decls :=
  {| xlCmd := namedCommand "xl";
     serverCmd := namedCommand "server";
     controllerCmd := namedCommand "controller";
     versionCmd := namedCommand "version";
     addressFlag := mkFlag "address" GlobalScope "";
     addressControllerFlag := mkFlag "address-controller" GlobalScope "";
     addressServerRPCFlag := mkFlag "address-server-rpc" GlobalScope "";
     ratelimitFlag := mkFlag "ratelimit" GlobalScope "";
     anonymousFlag := mkFlag "anonymous" GlobalScope "";
     certFlag := mkFlag "cert" GlobalScope "";
     keyFlag := mkFlag "key" GlobalScope "";
     jsonFlag := mkFlag "json" GlobalScope "" |}.

(** An environment: a regular user on a host whose name cannot be read. *)
Definition exampleEnv : Env :=
  {| userCurrent := Ok "minio"; euid := 1000; runtimeSupported := true;
     hostname := Err "hostname: not available";
     memAlloc := 1024; memTotalAlloc := 4096;
     memHeapAlloc := 512; memHeapSys := 2048;
     GOOS := "linux"; GOARCH := "amd64"; goVersion := "go1.5.1";
     numCPU := 4 |}.

(** The same environment for the super-user. *)
Definition rootEnv : Env :=
  {| userCurrent := Ok "root"; euid := 0; runtimeSupported := true;
     hostname := hostname exampleEnv;
     memAlloc := 1024; memTotalAlloc := 4096;
     memHeapAlloc := 512; memHeapSys := 2048;
     GOOS := "linux"; GOARCH := "amd64"; goVersion := "go1.5.1";
     numCPU := 4 |}.

(** The same environment with no user to be found. *)
Definition noUserEnv : Env :=
  {| userCurrent := Err "user: Current not implemented"; euid := 1000;
     runtimeSupported := true;
     hostname := hostname exampleEnv;
     memAlloc := 1024; memTotalAlloc := 4096;
     memHeapAlloc := 512; memHeapSys := 2048;
     GOOS := "linux"; GOARCH := "amd64"; goVersion := "go1.5.1";
     numCPU := 4 |}.

(** The environment [e] with another answer to [os.Hostname()]. *)
Definition withHostname (h : result string) (e : Env) : Env :=
  {| userCurrent := userCurrent e; euid := euid e;
     runtimeSupported := runtimeSupported e;
     hostname := h;
     memAlloc := memAlloc e; memTotalAlloc := memTotalAlloc e;
     memHeapAlloc := memHeapAlloc e; memHeapSys := memHeapSys e;
     GOOS := GOOS e; GOARCH := GOARCH e; goVersion := goVersion e;
     numCPU := numCPU e |}.

(** The command trie of the process state holds strings only. *)
Definition registryStrings (w : World) : Prop :=
  stringsOnly (commandsTree (registry w)) = true.

(** A computation keeps a property of the process state, however it ends. *)
Definition preserves (I : World -> Prop) {A} (m : M A) : Prop :=
  forall w, I w -> I (snd (m w)).

(** The message [init] ends with when the user cannot be found. *)
Definition noUserMessage (err : string) : string :=
  "Unable to obtain user's home directory. " +:+ nl
    +:+ "Error: " +:+ err +:+ nl.

(** A stand-in for [humanize.Bytes]: the decimal count with its unit. *)
Definition plainBytes (n : Z) : string := strconv.Itoa n +:+ "B".

(** ** Further definitions *)

(** The filesystem magic numbers that the keys of [fsType2StringMap] write,
    each with the name of its entry. *)
Definition fsTypeMagics : list (Z * string) :=
  [ (0x1021994,  "TMPFS");
    (0x137d,     "EXT");
    (0x4244,     "HFS");
    (0x4d44,     "MSDOS");
    (0x52654973, "REISERFS");
    (0x5346544e, "NTFS");
    (0x58465342, "XFS");
    (0x61756673, "AUFS");
    (0x6969,     "NFS");
    (0xef51,     "EXT2OLD");
    (0xef53,     "EXT4");
    (0xf15f,     "ecryptfs") ].

(** The name listed for a magic number, "UNKNOWN" for any other number. *)
Definition fsTypeOfMagic (z : Z) : string :=
  match find (fun entry => fst entry =? z) fsTypeMagics with
  | Some (_, name) => name
  | None => "UNKNOWN"
  end.

(** The state after [init] has passed its three checks from state [w]. *)
Definition afterInit (w : World) : World :=
  {| registry := registry w; stderr := stderr w;
     trace := trace w ++ initSteps |}.

(** The commands that [registerApp] registers, in source order. *)
Definition declCommands (d : Decls) : list Command :=
  [xlCmd d; serverCmd d; controllerCmd d; versionCmd d].

(** The flags that [registerApp] registers, in source order. *)
Definition declFlags (d : Decls) : list Flag :=
  [addressFlag d; addressControllerFlag d; addressServerRPCFlag d;
   ratelimitFlag d; anonymousFlag d; certFlag d; keyFlag d; jsonFlag d].

(** What [registerFlag] tells flags apart by: the name and the scope. *)
Definition flagKey (f : Flag) : string * scope := (FlagName f, FlagScope f).

(** Registration of a list of flags, in order. *)
Fixpoint registerFlags (fs : list Flag) : M unit :=
  match fs with
  | [] => ret tt
  | f :: fs' => registerFlag f ;;; registerFlags fs'
  end.

(** The registry that holds the declarations of [d] and nothing else. *)
Definition registryOf (d : Decls) : Registry :=
  {| commands := declCommands d;
     flags := declFlags d;
     commandsTree := insertNames (map Name (declCommands d)) trie.NewTrie |}.

(** The descriptor that [registerApp] returns for the declarations [d]. *)
Definition appOf (d : Decls) : App :=
  {| AppName := "minio-xl";
     HideVersion := true;
     Author := "Minio.io";
     AppUsage := "Minio Cloud Storage";
     AppFlags := declFlags d;
     AppCommands := declCommands d;
     AppCommandNotFound := CommandNotFound;
     ExtraInfo := None |}.

(** The descriptor that [main] hands to the argument parser. *)
Definition startedApp (humanizeBytes : Z -> string) (d : Decls) : App :=
  {| AppName := "minio-xl";
     HideVersion := true;
     Author := "Minio.io";
     AppUsage := "Minio Cloud Storage";
     AppFlags := declFlags d;
     AppCommands := declCommands d;
     AppCommandNotFound := CommandNotFound;
     ExtraInfo := Some (getSystemData humanizeBytes) |}.

(** The state of the process when the argument parser starts. *)
Definition startedWorld (d : Decls) : World :=
  {| registry := registryOf d; stderr := []; trace := initSteps |}.

(** The value of a decimal digit. *)
Definition decVal (c : ascii) : option Z :=
  match String.index 0 (String c "") "0123456789" with
  | Some i => Some (Z.of_nat i)
  | None => None
  end.

(** The number written by decimal digits after [acc]. *)
Fixpoint parseDecDigits (s : string) (acc : Z) : option Z :=
  match s with
  | EmptyString => Some acc
  | String c s' =>
      match decVal c with
      | Some d => parseDecDigits s' (acc * 10 + d)
      | None => None
      end
  end.

(** The integer written by a decimal numeral with an optional minus sign. *)
Definition parseDec (s : string) : option Z :=
  match s with
  | String "-"%char body => option_map Z.opp (parseDecDigits body 0)
  | _ => parseDecDigits s 0
  end.

(** * Properties *)

(** ** Filesystem types *)

Lemma fsType2StringMap_entry (k v : string) :
  disk.fsType2StringMap !! k = Some v -> In (k, v) disk.fsTypeTable.
Proof.
  intros H. apply list_elem_of_In.
  unfold disk.fsType2StringMap in H.
  apply (elem_of_list_to_map_2 (M := gmap string) _ _ _ H).
Qed.

Lemma FormatInt_negative (z base : Z) :
  z < 0 -> exists body, strconv.FormatInt z base = String "-"%char body.
Proof.
  intros Hz. unfold strconv.FormatInt, strconv.formatBits.
  apply Z.ltb_lt in Hz. rewrite Hz. eexists. reflexivity.
Qed.

Lemma fsType2StringMap_no_sign (body : string) :
  disk.fsType2StringMap !! String "-"%char body = None.
Proof.
  destruct (disk.fsType2StringMap !! String "-"%char body) as [v|] eqn:E; [|reflexivity].
  apply fsType2StringMap_entry in E. simpl in E.
  repeat (destruct E as [E|E]; [discriminate E|]). destruct E.
Qed.

Lemma fsType2StringMap_value (k v : string) :
  disk.fsType2StringMap !! k = Some v -> v <> "" /\ v <> "UNKNOWN".
Proof.
  intros E. apply fsType2StringMap_entry in E. simpl in E.
  repeat (destruct E as [E|E]; [inversion E; split; discriminate|]). destruct E.
Qed.

Lemma hexVal_digit (d : Z) : 0 <= d < 16 -> strconv.hexVal (strconv.digit d) = Some d.
Proof.
  intros H.
  assert (Hc : In d [0;1;2;3;4;5;6;7;8;9;10;11;12;13;14;15]) by (simpl; lia).
  simpl in Hc.
  repeat (destruct Hc as [<-|Hc]; [reflexivity|]). destruct Hc.
Qed.

Lemma shiftLoop_parse (fuel : nat) : forall (u : Z) (rest : string),
  0 <= u < 16 ^ Z.of_nat (S fuel) ->
  strconv.parseDigits (strconv.shiftLoop fuel 16 4 15 u rest) 0 = strconv.parseDigits rest u.
Proof.
  induction fuel as [|fuel IH]; intros u rest Hu.
  - change (16 ^ Z.of_nat 1) with 16 in Hu.
    cbn [strconv.shiftLoop strconv.parseDigits].
    change 15 with (Z.ones 4). rewrite Z.land_ones by lia.
    rewrite Z.mod_small by (change (2^4) with 16; lia).
    rewrite hexVal_digit by lia. reflexivity.
  - cbn [strconv.shiftLoop].
    destruct (16 <=? u) eqn:E.
    + apply Z.leb_le in E.
      rewrite IH.
      * cbn [strconv.parseDigits]. change 15 with (Z.ones 4). rewrite Z.land_ones by lia.
        rewrite hexVal_digit by (apply Z.mod_pos_bound; reflexivity).
        f_equal. rewrite Z.shiftr_div_pow2 by lia. change (2 ^ 4) with 16.
        pose proof (Z.div_mod u 16). lia.
      * rewrite Z.shiftr_div_pow2 by lia. change (2 ^ 4) with 16.
        rewrite Nat2Z.inj_succ, Z.pow_succ_r in Hu by lia.
        split; [apply Z.div_pos; lia|].
        apply Z.div_lt_upper_bound; lia.
    + apply Z.leb_gt in E. cbn [strconv.parseDigits].
      rewrite hexVal_digit by lia. reflexivity.
Qed.

Lemma FormatInt_hex_roundtrip (z : Z) :
  disk.int64_range z -> strconv.parseHex (strconv.FormatInt z 16) = Some z.
Proof.
  unfold disk.int64_range. intros Hz.
  unfold strconv.FormatInt, strconv.formatBits.
  change (strconv.isPowerOfTwo 16) with true.
  change (Z.log2 16) with 4. change (16 - 1) with 15. cbv iota.
  destruct (z <? 0) eqn:E.
  - apply Z.ltb_lt in E. cbn [strconv.parseHex].
    assert (Hu : strconv.uint64 (- strconv.uint64 z) = - z).
    { unfold strconv.uint64.
      rewrite <- (Z.mod_add z 1) by lia. rewrite (Z.mod_small (z + 1 * 2 ^ 64)) by lia.
      rewrite <- (Z.mod_add _ 1) by lia. rewrite Z.mod_small by lia. lia. }
    rewrite Hu.
    change (if Ascii.eqb "-" "-" then ?a else ?b) with a.
    rewrite shiftLoop_parse by (change (16 ^ Z.of_nat 65) with (2 ^ 260); lia).
    cbn. f_equal. lia.
  - apply Z.ltb_ge in E.
    assert (Hu : strconv.uint64 z = z) by (apply Z.mod_small; lia).
    rewrite Hu.
    assert (Hp : forall s, strconv.parseDigits s 0 = Some z -> strconv.parseHex s = Some z).
    { intros s Hs. unfold strconv.parseHex. destruct s as [|c s']; [exact Hs|].
      destruct c as [[] [] [] [] [] [] [] []]; try exact Hs.
      cbn in Hs. discriminate. }
    apply Hp, shiftLoop_parse. change (16 ^ Z.of_nat 65) with (2 ^ 260); lia.
Qed.

Lemma fsTypeTable_names_unique (k k' name : string) :
  In (k, name) disk.fsTypeTable -> In (k', name) disk.fsTypeTable -> k = k'.
Proof.
  intros H H'. cbn in H, H'.
  repeat (destruct H as [H|H]; [injection H as <- <-|]); try destruct H;
    repeat (destruct H' as [H'|H']; [first [discriminate H' | injection H' as <-; reflexivity]|]);
    destruct H'.
Qed.

(** The name of a table entry is returned for the number its key writes,
    and for no other [int64]. *)
Lemma getFSType_by_number (z : Z) (k name : string) :
  disk.int64_range z -> In (k, name) disk.fsTypeTable ->
  disk.getFSType z = name <-> strconv.parseHex k = Some z.
Proof.
  intros Hz Hk. split.
  - unfold disk.getFSType.
    destruct (disk.fsType2StringMap !! strconv.FormatInt z 16) as [v|] eqn:E.
    + intros ->. apply fsType2StringMap_entry in E.
      rewrite (fsTypeTable_names_unique _ _ _ Hk E).
      apply FormatInt_hex_roundtrip. exact Hz.
    + intros <-. cbn in Hk.
      repeat (destruct Hk as [Hk|Hk]; [discriminate Hk|]). destruct Hk.
  - intros Hp. cbn in Hk.
    repeat (destruct Hk as [Hk|Hk];
            [injection Hk as <- <-; vm_compute in Hp; injection Hp as <-;
             vm_compute; reflexivity|]).
    destruct Hk.
Qed.

Example getFSType_ext4_only (z : Z) :
  disk.int64_range z -> disk.getFSType z = "EXT4" <-> z = 61267.
Proof.
  intros Hz. rewrite (getFSType_by_number z "ef53" "EXT4" Hz).
  - vm_compute. split; congruence.
  - cbn. tauto.
Qed.

(** ** The command trie *)

Section TrieFacts.
Context {V : Type}.
Implicit Types (n m : trie.Node V) (cs : list (ascii * trie.Node V)).

Lemma Walk_mkNode (t : option V) cs :
  trie.Walk (trie.mkNode t cs)
  = match t with Some v => [v] | None => [] end ++ trie.walkAll cs.
Proof. induction cs as [|[c m] cs IH]; reflexivity. Qed.

Lemma Walk_children n :
  forall v, In v (trie.walkAll (trie.children n)) -> In v (trie.Walk n).
Proof.
  destruct n as [t cs]. intros v Hv. rewrite Walk_mkNode.
  apply in_or_app. right. exact Hv.
Qed.

Lemma lookupChild_walk (c : ascii) cs m :
  trie.lookupChild c cs = Some m ->
  forall v, In v (trie.Walk m) -> In v (trie.walkAll cs).
Proof.
  induction cs as [|[c' k] cs IH]; cbn [trie.lookupChild trie.walkAll].
  - discriminate.
  - destruct (Ascii.eqb c c').
    + intros [= ->] v Hv. apply in_or_app. left. exact Hv.
    + intros Hm v Hv. apply in_or_app. right. exact (IH Hm v Hv).
Qed.

Lemma findNode_walk (p : string) : forall n m,
  trie.findNode p n = Some m -> forall v, In v (trie.Walk m) -> In v (trie.Walk n).
Proof.
  induction p as [|c p IH]; intros n m; cbn [trie.findNode].
  - intros [= ->] v Hv. exact Hv.
  - destruct (trie.lookupChild c (trie.children n)) as [child|] eqn:E; [|discriminate].
    intros Hm v Hv. apply Walk_children.
    apply (lookupChild_walk _ _ _ E). exact (IH _ _ Hm v Hv).
Qed.

Lemma PrefixMatch_walk (p : string) n :
  forall v, In v (trie.PrefixMatch p n) -> In v (trie.Walk n).
Proof.
  unfold trie.PrefixMatch. destruct (trie.findNode p n) as [m|] eqn:E.
  - apply (findNode_walk _ _ _ E).
  - intros v [].
Qed.

Variable P : V -> Prop.

Lemma updateChild_values (c : ascii) (f : trie.Node V -> trie.Node V) cs :
  (forall m, Forall P (trie.Walk m) -> Forall P (trie.Walk (f m))) ->
  Forall P (trie.walkAll cs) -> Forall P (trie.walkAll (trie.updateChild c f cs)).
Proof.
  intros Hf. induction cs as [|[c' k] cs IH]; cbn [trie.updateChild trie.walkAll].
  - intros _. apply Forall_app. split; [|constructor].
    apply Hf. constructor.
  - intros H. apply Forall_app in H. destruct H as [Hk Hcs].
    destruct (Ascii.eqb c c'); cbn [trie.walkAll]; apply Forall_app; split; auto.
Qed.

Lemma Insert_values (key : string) (value : V) : forall n,
  P value -> Forall P (trie.Walk n) -> Forall P (trie.Walk (trie.Insert key value n)).
Proof.
  induction key as [|c key IH]; intros [t cs] Hv Hn; cbn [trie.Insert trie.children trie.terminal];
    rewrite Walk_mkNode in *; apply Forall_app in Hn; destruct Hn as [Ht Hcs];
    apply Forall_app; split.
  - constructor; [exact Hv|constructor].
  - exact Hcs.
  - exact Ht.
  - apply updateChild_values; [|exact Hcs]. intros m Hm. apply IH; assumption.
Qed.

End TrieFacts.

Section TrieSemantics.
Context {V : Type}.
Implicit Types (n m : trie.Node V) (cs : list (ascii * trie.Node V)).

Lemma Node_children_ind (P : trie.Node V -> Prop) :
  (forall t cs, Forall (fun p => P (snd p)) cs -> P (trie.mkNode t cs)) ->
  forall n, P n.
Proof.
  intros Hnode. fix IH 1. intros [t cs]. apply Hnode.
  induction cs as [|[c m] cs IHcs]; constructor; [apply IH|exact IHcs].
Qed.

Lemma wf_mkNode (t : option V) cs :
  trie.wf (trie.mkNode t cs) <-> List.NoDup (map fst cs) /\ trie.wfAll cs.
Proof. induction cs as [|[c m] cs IH]; reflexivity. Qed.

Lemma lookupChild_In (c : ascii) cs m :
  trie.lookupChild c cs = Some m -> In (c, m) cs.
Proof.
  induction cs as [|[c' k] cs IH]; cbn [trie.lookupChild]; [discriminate|].
  destruct (Ascii.eqb c c') eqn:E.
  - apply Ascii.eqb_eq in E. intros [= ->]. left. subst. reflexivity.
  - intros H. right. exact (IH H).
Qed.

Lemma In_lookupChild (c : ascii) cs m :
  List.NoDup (map fst cs) -> In (c, m) cs -> trie.lookupChild c cs = Some m.
Proof.
  induction cs as [|[c' k] cs IH]; cbn [trie.lookupChild map fst]; [intros _ []|].
  intros Hnd [Heq|Hin].
  - injection Heq as -> ->. rewrite Ascii.eqb_refl. reflexivity.
  - inversion Hnd as [|? ? Hnotin Hnd']; subst.
    destruct (Ascii.eqb c c') eqn:E.
    + apply Ascii.eqb_eq in E. subst. exfalso. apply Hnotin.
      apply (in_map fst) in Hin. exact Hin.
    + apply IH; assumption.
Qed.

Lemma wfAll_In cs c m : trie.wfAll cs -> In (c, m) cs -> trie.wf m.
Proof.
  induction cs as [|[c' k] cs IH]; cbn [trie.wfAll]; [intros _ []|].
  intros [Hk Hcs] [Heq|Hin].
  - injection Heq as -> ->. exact Hk.
  - exact (IH Hcs Hin).
Qed.

Lemma walkAll_In cs v :
  In v (trie.walkAll cs) <-> exists c m, In (c, m) cs /\ In v (trie.Walk m).
Proof.
  induction cs as [|[c' k] cs IH]; cbn [trie.walkAll].
  - split; [intros []|]. intros [c [m [Hin _]]]. destruct Hin.
  - rewrite in_app_iff, IH. split.
    + intros [Hv|[c [m [Hin Hv]]]].
      * exists c', k. split; [left; reflexivity|exact Hv].
      * exists c, m. split; [right; exact Hin|exact Hv].
    + intros [c [m [[Heq|Hin] Hv]]].
      * injection Heq as -> ->. left. exact Hv.
      * right. exists c, m. split; assumption.
Qed.

Lemma findNode_wf (p : string) : forall n m,
  trie.wf n -> trie.findNode p n = Some m -> trie.wf m.
Proof.
  induction p as [|c p IH]; intros [t cs] m Hwf; cbn [trie.findNode trie.children].
  - intros [= <-]. exact Hwf.
  - destruct (trie.lookupChild c cs) as [child|] eqn:E; [|discriminate].
    intros Hm. apply (IH child); [|exact Hm].
    destruct (proj1 (wf_mkNode _ _) Hwf) as [_ Hall].
    apply (wfAll_In _ _ _ Hall (lookupChild_In _ _ _ E)).
Qed.

Lemma findNode_app (p k : string) : forall n,
  trie.findNode (p +:+ k) n
  = match trie.findNode p n with
    | Some m => trie.findNode k m
    | None => None
    end.
Proof.
  induction p as [|c p IH]; intros n; [reflexivity|].
  change (String c p +:+ k) with (String c (p +:+ k)). cbn [trie.findNode].
  destruct (trie.lookupChild c (trie.children n)); [apply IH|reflexivity].
Qed.

(** The values of a traversal are the values stored under some key. *)
Lemma Walk_Find : forall n v,
  trie.wf n -> In v (trie.Walk n) <-> exists k, trie.Find k n = Some v.
Proof.
  induction n as [t cs IH] using Node_children_ind. intros v Hwf.
  destruct (proj1 (wf_mkNode _ _) Hwf) as [Hnd Hall].
  rewrite Walk_mkNode, in_app_iff, walkAll_In. split.
  - intros [Ht|[c [m [Hin Hv]]]].
    + exists "". unfold trie.Find. cbn. destruct t as [x|]; [|destruct Ht].
      destruct Ht as [->|[]]. reflexivity.
    + rewrite List.Forall_forall in IH.
      destruct (proj1 (IH _ Hin v (wfAll_In _ _ _ Hall Hin)) Hv) as [k Hk].
      exists (String c k). unfold trie.Find in *. cbn [trie.findNode trie.children].
      rewrite (In_lookupChild _ _ _ Hnd Hin). exact Hk.
  - intros [[|c k] Hk]; unfold trie.Find in Hk; cbn [trie.findNode trie.children] in Hk.
    + left. cbn in Hk. rewrite Hk. left. reflexivity.
    + destruct (trie.lookupChild c cs) as [child|] eqn:E; [|discriminate].
      apply lookupChild_In in E. right. exists c, child. split; [exact E|].
      rewrite List.Forall_forall in IH.
      apply (IH _ E v (wfAll_In _ _ _ Hall E)). exists k. exact Hk.
Qed.

(** [PrefixMatch] returns the values stored under the keys that extend the
    prefix. *)
Lemma PrefixMatch_Find (p : string) n v :
  trie.wf n ->
  In v (trie.PrefixMatch p n) <-> exists k, trie.Find (p +:+ k) n = Some v.
Proof.
  intros Hwf. unfold trie.PrefixMatch.
  destruct (trie.findNode p n) as [m|] eqn:E.
  - rewrite (Walk_Find m v (findNode_wf _ _ _ Hwf E)).
    split; intros [k Hk]; exists k; unfold trie.Find in *;
      rewrite findNode_app, E in *; exact Hk.
  - split; [intros []|]. intros [k Hk]. unfold trie.Find in Hk.
    rewrite findNode_app, E in Hk. discriminate.
Qed.

Lemma lookupChild_updateChild_eq (c : ascii) (f : trie.Node V -> trie.Node V) cs :
  trie.lookupChild c (trie.updateChild c f cs)
  = Some (f (match trie.lookupChild c cs with
             | Some m => m
             | None => trie.NewTrie
             end)).
Proof.
  induction cs as [|[c' k] cs IH]; cbn [trie.updateChild trie.lookupChild].
  - rewrite Ascii.eqb_refl. reflexivity.
  - destruct (Ascii.eqb c c') eqn:E; cbn [trie.lookupChild]; rewrite E.
    + reflexivity.
    + exact IH.
Qed.

Lemma lookupChild_updateChild_ne (c c' : ascii) (f : trie.Node V -> trie.Node V) cs :
  c <> c' ->
  trie.lookupChild c' (trie.updateChild c f cs) = trie.lookupChild c' cs.
Proof.
  intros Hne. apply Ascii.eqb_neq in Hne.
  induction cs as [|[c'' k] cs IH]; cbn [trie.updateChild trie.lookupChild].
  - rewrite Ascii.eqb_sym, Hne. reflexivity.
  - destruct (Ascii.eqb c c'') eqn:E; cbn [trie.lookupChild].
    + apply Ascii.eqb_eq in E. subst c''. rewrite Ascii.eqb_sym, Hne. reflexivity.
    + destruct (Ascii.eqb c' c''); [reflexivity|exact IH].
Qed.

Lemma Find_NewTrie (k : string) : trie.Find k (@trie.NewTrie V) = None.
Proof. destruct k; reflexivity. Qed.

Lemma Find_Insert_eq (k : string) (v : V) : forall n,
  trie.Find k (trie.Insert k v n) = Some v.
Proof.
  induction k as [|c k IH]; intros n; [reflexivity|].
  unfold trie.Find in *. cbn [trie.Insert trie.findNode trie.children].
  rewrite lookupChild_updateChild_eq. apply IH.
Qed.

Lemma Find_Insert_ne (k : string) (v : V) : forall k' n,
  k <> k' -> trie.Find k' (trie.Insert k v n) = trie.Find k' n.
Proof.
  induction k as [|c k IH]; intros [|c' k'] n Hne; try contradiction;
    unfold trie.Find in *; cbn [trie.Insert trie.findNode trie.children trie.terminal];
    try reflexivity.
  destruct (Ascii.eqb c c') eqn:E.
  - apply Ascii.eqb_eq in E. subst c'.
    rewrite lookupChild_updateChild_eq.
    rewrite IH by congruence.
    destruct (trie.lookupChild c (trie.children n)); [reflexivity|].
    apply Find_NewTrie.
  - apply Ascii.eqb_neq in E. rewrite lookupChild_updateChild_ne by exact E.
    reflexivity.
Qed.

Lemma updateChild_keys (c : ascii) (f : trie.Node V -> trie.Node V) cs :
  List.NoDup (map fst cs) -> List.NoDup (map fst (trie.updateChild c f cs)).
Proof.
  induction cs as [|[c' k] cs IH]; cbn [trie.updateChild map fst]; intros Hnd.
  - constructor; [intros []|constructor].
  - inversion Hnd as [|? ? Hnotin Hnd']; subst.
    destruct (Ascii.eqb c c') eqn:E; cbn [map fst].
    + constructor; assumption.
    + constructor; [|apply IH; exact Hnd'].
      intros Hx. apply Hnotin. clear IH Hnd Hnd' Hnotin.
      apply Ascii.eqb_neq in E.
      induction cs as [|[c'' k''] cs IH]; cbn [trie.updateChild map fst] in Hx.
      * destruct Hx as [->|[]]. contradiction.
      * destruct (Ascii.eqb c c''); cbn [map fst] in Hx |- *.
        -- exact Hx.
        -- destruct Hx as [->|Hx]; [left; reflexivity|right; exact (IH Hx)].
Qed.

Lemma updateChild_wfAll (c : ascii) (f : trie.Node V -> trie.Node V) cs :
  (forall m, trie.wf m -> trie.wf (f m)) ->
  trie.wfAll cs -> trie.wfAll (trie.updateChild c f cs).
Proof.
  intros Hf. induction cs as [|[c' k] cs IH]; cbn [trie.updateChild trie.wfAll].
  - intros _. split; [|exact I]. apply Hf. split; [constructor|exact I].
  - intros [Hk Hcs]. destruct (Ascii.eqb c c'); cbn [trie.wfAll]; split; auto.
Qed.

Lemma wf_NewTrie : trie.wf (@trie.NewTrie V).
Proof. split; [constructor|exact I]. Qed.

Lemma wf_Insert (k : string) (v : V) : forall n,
  trie.wf n -> trie.wf (trie.Insert k v n).
Proof.
  induction k as [|c k IH]; intros [t cs] Hwf;
    cbn [trie.Insert trie.children trie.terminal];
    destruct (proj1 (wf_mkNode _ _) Hwf) as [Hnd Hall]; apply wf_mkNode.
  - split; assumption.
  - split; [apply updateChild_keys; exact Hnd|].
    apply updateChild_wfAll; [exact IH|exact Hall].
Qed.

End TrieSemantics.

Lemma wf_insertNames (names : list string) : forall tree,
  trie.wf tree -> trie.wf (insertNames names tree).
Proof.
  induction names as [|name names IH]; intros tree Hwf; [exact Hwf|].
  apply IH. apply wf_Insert. exact Hwf.
Qed.

Lemma Find_insertNames_other (names : list string) : forall tree k,
  ~ In k names -> trie.Find k (insertNames names tree) = trie.Find k tree.
Proof.
  induction names as [|name names IH]; intros tree k Hk; [reflexivity|].
  cbn [insertNames fold_left]. fold (insertNames names).
  rewrite IH by (intros H; apply Hk; right; exact H).
  apply Find_Insert_ne. intros ->. apply Hk. left. reflexivity.
Qed.

Lemma Find_insertNames_member (names : list string) : forall tree k,
  In k names -> trie.Find k (insertNames names tree) = Some (IString k).
Proof.
  induction names as [|name names IH]; intros tree k Hk; [destruct Hk|].
  cbn [insertNames fold_left]. fold (insertNames names).
  destruct (in_dec string_dec k names) as [Hin|Hout].
  - apply IH. exact Hin.
  - rewrite Find_insertNames_other by exact Hout.
    destruct Hk as [->|Hk]; [|contradiction]. apply Find_Insert_eq.
Qed.

(** The trie built from a list of names matches a prefix with the names
    that extend it, and with nothing else. *)
Lemma PrefixMatch_insertNames (names : list string) (p : string) (v : iface) :
  In v (trie.PrefixMatch p (insertNames names trie.NewTrie))
  <-> exists k, In (p +:+ k) names /\ v = IString (p +:+ k).
Proof.
  rewrite PrefixMatch_Find by (apply wf_insertNames, wf_NewTrie).
  split; intros [k Hk]; exists k.
  - destruct (in_dec string_dec (p +:+ k) names) as [Hin|Hout].
    + rewrite (Find_insertNames_member _ _ _ Hin) in Hk. split; congruence.
    + rewrite (Find_insertNames_other _ _ _ Hout), Find_NewTrie in Hk. discriminate.
  - destruct Hk as [Hin ->]. apply Find_insertNames_member. exact Hin.
Qed.

Lemma stringsOnly_Forall (tree : trie.Node iface) :
  stringsOnly tree = true <-> Forall (fun v => isString v = true) (trie.Walk tree).
Proof. unfold stringsOnly. rewrite forallb_forall, List.Forall_forall. reflexivity. Qed.

Lemma stringsOnly_Insert (name : string) (tree : trie.Node iface) :
  stringsOnly tree = true ->
  stringsOnly (trie.Insert name (IString name) tree) = true.
Proof.
  rewrite !stringsOnly_Forall. apply Insert_values. reflexivity.
Qed.

Lemma strings_are_mapped (vs : list iface) :
  Forall (fun v => isString v = true) vs -> exists l, vs = map IString l.
Proof.
  induction 1 as [|v vs Hv _ [l ->]].
  - exists []. reflexivity.
  - destruct v as [s| |]; try discriminate. exists (s :: l). reflexivity.
Qed.

Lemma assert_loop (l : list string) : forall acc,
  fold_left
    (fun closestCommands value =>
       match closestCommands, assertString value with
       | Some cs, Some s => Some (cs ++ [s])
       | _, _ => None
       end)
    (map IString l) (Some acc) = Some (acc ++ l).
Proof.
  induction l as [|s l IH]; intros acc; cbn [map fold_left assertString].
  - rewrite app_nil_r. reflexivity.
  - rewrite IH, <- app_assoc. reflexivity.
Qed.

Lemma findClosestCommands_strings (tree : trie.Node iface) (command : string) (l : list string) :
  trie.PrefixMatch command tree = map IString l ->
  findClosestCommands tree command = Some l.
Proof.
  intros H. unfold findClosestCommands. rewrite H. apply assert_loop.
Qed.


(** ** Registration *)

Lemma hasCommand_In (name : string) (r : Registry) :
  hasCommand name r = true <-> In name (map Name (commands r)).
Proof.
  unfold hasCommand. rewrite existsb_exists, in_map_iff.
  split; intros [c [H1 H2]]; exists c.
  - apply String.eqb_eq in H2. split; assumption.
  - split; [assumption|]. apply String.eqb_eq. assumption.
Qed.

Lemma hasCommand_fresh (name : string) (r : Registry) :
  ~ In name (map Name (commands r)) -> hasCommand name r = false.
Proof.
  intros H. destruct (hasCommand name r) eqn:E; [|reflexivity].
  apply hasCommand_In in E. contradiction.
Qed.

Lemma registerCommand_exists (command : Command) (w : World) :
  hasCommand (Name command) (registry w) = true ->
  registerCommand command w = (Failed (DuplicateCommand (Name command)), w).
Proof.
  intros H. unfold registerCommand, bind, getRegistry. rewrite H. reflexivity.
Qed.

Lemma registerCommand_fresh (command : Command) (w : World) :
  hasCommand (Name command) (registry w) = false ->
  registerCommand command w
  = (Done tt,
     {| registry :=
          {| commands := commands (registry w) ++ [command];
             flags := flags (registry w);
             commandsTree := trie.Insert (Name command) (IString (Name command))
                                         (commandsTree (registry w)) |};
        stderr := stderr w; trace := trace w |}).
Proof.
  intros H. unfold registerCommand, bind, getRegistry. rewrite H. reflexivity.
Qed.

Lemma registerCommand_twice (c1 c2 : Command) (w w1 : World) :
  registerCommand c1 w = (Done tt, w1) -> Name c2 = Name c1 ->
  registerCommand c2 w1 = (Failed (DuplicateCommand (Name c2)), w1).
Proof.
  intros H1 Hn. apply registerCommand_exists.
  destruct (hasCommand (Name c1) (registry w)) eqn:E.
  - rewrite (registerCommand_exists _ _ E) in H1. discriminate.
  - rewrite (registerCommand_fresh _ _ E) in H1. injection H1 as <-.
    apply hasCommand_In. cbn. rewrite map_app, Hn. apply in_or_app.
    right. left. reflexivity.
Qed.

Lemma registerAll_run (cmds : list Command) : forall w,
  List.NoDup (map Name (commands (registry w)) ++ map Name cmds) ->
  registerAll cmds w
  = (Done tt,
     {| registry :=
          {| commands := commands (registry w) ++ cmds;
             flags := flags (registry w);
             commandsTree := insertNames (map Name cmds) (commandsTree (registry w)) |};
        stderr := stderr w; trace := trace w |}).
Proof.
  induction cmds as [|c cmds IH]; intros w Hnd.
  - destruct w as [[cs fs t] err tr]. cbn. rewrite app_nil_r. reflexivity.
  - cbn [registerAll]. unfold bind at 1.
    rewrite registerCommand_fresh.
    + rewrite IH.
      * cbn. rewrite <- app_assoc. reflexivity.
      * cbn. rewrite map_app, <- app_assoc. exact Hnd.
    + apply hasCommand_fresh. intros Hin.
      cbn [map] in Hnd. apply List.NoDup_remove_2 in Hnd. apply Hnd. apply in_or_app. left. exact Hin.
Qed.

Lemma insertions_middle {A} (x : A) (l1 l2 : list A) :
  In (l1 ++ x :: l2) (insertions x (l1 ++ l2)).
Proof.
  induction l1 as [|y l1 IH]; cbn [app insertions].
  - destruct l2; left; reflexivity.
  - right. apply in_map. exact IH.
Qed.

Lemma orders_complete {A} (l : list A) : forall l',
  Permutation l' l -> In l' (orders l).
Proof.
  induction l as [|x l IH]; intros l' Hp; cbn [orders].
  - symmetry in Hp. apply Permutation_nil in Hp. subst. left. reflexivity.
  - destruct (Permutation_vs_cons_inv Hp) as [l1 [l2 ->]].
    apply in_flat_map. exists (l1 ++ l2). split.
    + apply IH. symmetry. apply Permutation_cons_app_inv with (a := x).
      symmetry. exact Hp.
    + apply insertions_middle.
Qed.

Lemma scenario_all_orders (names : list string) :
  Permutation names scenarioNames -> scenarioHolds names = true.
Proof.
  intros Hp. apply orders_complete in Hp.
  cbv [orders scenarioNames flat_map insertions map app] in Hp.
  cbn [In] in Hp.
  repeat (destruct Hp as [<-|Hp]; [vm_compute; reflexivity|]). destruct Hp.
Qed.

(** ** The not-found path *)

Lemma append_assoc (a b c : string) : (a +:+ b) +:+ c = a +:+ (b +:+ c).
Proof.
  induction a as [|x a IH]; [reflexivity|].
  change (String x ((a +:+ b) +:+ c) = String x (a +:+ (b +:+ c))).
  rewrite IH. reflexivity.
Qed.

Lemma append_nil_r (a : string) : a +:+ "" = a.
Proof.
  induction a as [|x a IH]; [reflexivity|].
  change (String x (a +:+ "") = String x a). rewrite IH. reflexivity.
Qed.

Lemma suggestion_loop (l : list string) : forall msg,
  fold_left (fun msg cmd => msg +:+ "        ‘" +:+ cmd +:+ "’" +:+ nl) l msg
  = msg +:+ fold_right String.append "" (map suggestionLine l).
Proof.
  induction l as [|c l IH]; intros msg; cbn [fold_left map fold_right].
  - rewrite append_nil_r. reflexivity.
  - rewrite IH. unfold suggestionLine. rewrite !append_assoc. reflexivity.
Qed.

Lemma notFoundMessage_nil (command : string) :
  notFoundMessage command [] = notFoundHeader command.
Proof. reflexivity. Qed.

Lemma notFoundMessage_cons (command c : string) (l : list string) :
  notFoundMessage command (c :: l) = notFoundHeader command +:+ didYouMean (c :: l).
Proof.
  unfold notFoundMessage. cbn [length Nat.ltb Nat.leb].
  rewrite suggestion_loop. unfold didYouMean. rewrite !append_assoc. reflexivity.
Qed.

Lemma CommandNotFound_run (command : string) (w : World) (l : list string) :
  findClosestCommands (commandsTree (registry w)) command = Some l ->
  CommandNotFound command w
  = (Exited fatalExitCode, afterFatal w (notFoundMessage command l +:+ nl)).
Proof.
  intros H. unfold CommandNotFound, bind, getRegistry. rewrite H. reflexivity.
Qed.


Lemma findClosestCommands_total (tree : trie.Node iface) (command : string) :
  stringsOnly tree = true ->
  exists l, trie.PrefixMatch command tree = map IString l
            /\ findClosestCommands tree command = Some l.
Proof.
  intros Hs. apply stringsOnly_Forall in Hs.
  destruct (strings_are_mapped (trie.PrefixMatch command tree)) as [l Hl].
  { rewrite List.Forall_forall in *. intros v Hv. apply Hs.
    apply (PrefixMatch_walk command). exact Hv. }
  exists l. split; [exact Hl|].
  apply findClosestCommands_strings. exact Hl.
Qed.

Lemma assert_loop_panics (vs : list iface) : forall acc : list string,
  fold_left
    (fun closestCommands value =>
       match closestCommands, assertString value with
       | Some cs, Some s => Some (cs ++ [s])
       | _, _ => None
       end) vs (Some acc) = None <->
  exists v, In v vs /\ isString v = false.
Proof.
  assert (Hnone : forall vs : list iface,
             fold_left
               (fun closestCommands value =>
                  match closestCommands, assertString value with
                  | Some cs, Some s => Some (cs ++ [s])
                  | _, _ => None
                  end) vs None = None).
  { intros l. induction l as [|v l IH]; [reflexivity|exact IH]. }
  induction vs as [|v vs IH]; intros acc; cbn [fold_left].
  - split; [discriminate|]. intros [v [[] _]].
  - destruct v as [s|n|]; cbn [assertString].
    + rewrite IH. split.
      * intros [v [Hv Hs]]. exists v. split; [right; exact Hv|exact Hs].
      * intros [v [[<-|Hv] Hs]]; [discriminate|]. exists v. split; assumption.
    + rewrite Hnone. split; [|reflexivity]. intros _.
      exists (IInt n). split; [left|]; reflexivity.
    + rewrite Hnone. split; [|reflexivity]. intros _.
      exists INil. split; [left|]; reflexivity.
Qed.

(** A matched value that is not a string makes [findClosestCommands]
    panic, and nothing else does. *)
Lemma findClosestCommands_panics (tree : trie.Node iface) (command : string) :
  findClosestCommands tree command = None <->
  exists v, In v (trie.PrefixMatch command tree) /\ isString v = false.
Proof. apply assert_loop_panics. Qed.

Lemma stringsOnly_insertNames (names : list string) : forall tree,
  stringsOnly tree = true -> stringsOnly (insertNames names tree) = true.
Proof.
  induction names as [|name names IH]; intros tree Htree; [exact Htree|].
  apply IH. apply stringsOnly_Insert. exact Htree.
Qed.

(** After the registration of commands with distinct names, the closest
    commands of a token are the registered names that extend it. *)
Lemma suggestions_are_extensions (cmds : list Command) (command s : string) :
  List.NoDup (map Name cmds) ->
  exists w l,
    registerAll cmds initialWorld = (Done tt, w)
    /\ findClosestCommands (commandsTree (registry w)) command = Some l
    /\ (In s l <-> exists k, In (command +:+ k) (map Name cmds)
                             /\ s = command +:+ k).
Proof.
  intros Hnd. eexists.
  destruct (findClosestCommands_total
              (insertNames (map Name cmds) trie.NewTrie) command) as [l [Hm Hl]].
  { apply stringsOnly_insertNames. reflexivity. }
  exists l. split; [apply registerAll_run; exact Hnd|].
  cbn [registry commandsTree initialWorld emptyRegistry].
  split; [exact Hl|].
  split.
  - intros Hs.
    assert (Hv : In (IString s)
                    (trie.PrefixMatch command
                       (insertNames (map Name cmds) trie.NewTrie))).
    { rewrite Hm. apply in_map. exact Hs. }
    apply PrefixMatch_insertNames in Hv. destruct Hv as [k [Hin Heq]].
    exists k. split; [exact Hin|]. congruence.
  - intros [k [Hin ->]].
    assert (Hv : In (IString (command +:+ k))
                    (trie.PrefixMatch command
                       (insertNames (map Name cmds) trie.NewTrie))).
    { apply PrefixMatch_insertNames. exists k. split; [exact Hin|reflexivity]. }
    rewrite Hm in Hv. apply in_map_iff in Hv. destruct Hv as [x [Hx Hin']].
    injection Hx as ->. exact Hin'.
Qed.

(** ** The registry keeps strings only *)

Lemma preserves_ret {A} (I : World -> Prop) (a : A) : preserves I (ret a).
Proof. intros w Hw. exact Hw. Qed.

Lemma preserves_bind {A B} (I : World -> Prop) (m : M A) (k : A -> M B) :
  preserves I m -> (forall a, preserves I (k a)) -> preserves I (bind m k).
Proof.
  intros Hm Hk w Hw. unfold bind. specialize (Hm w Hw).
  destruct (m w) as [[a|code|err|] w']; cbn in *; try exact Hm.
  apply Hk. exact Hm.
Qed.

Lemma preserves_registerCommand (command : Command) :
  preserves registryStrings (registerCommand command).
Proof.
  intros w Hw. destruct (hasCommand (Name command) (registry w)) eqn:E.
  - rewrite (registerCommand_exists _ _ E). exact Hw.
  - rewrite (registerCommand_fresh _ _ E). apply stringsOnly_Insert. exact Hw.
Qed.

Lemma preserves_registerFlag (flag : Flag) :
  preserves registryStrings (registerFlag flag).
Proof.
  intros w Hw. unfold registerFlag, bind, getRegistry.
  destruct (hasFlag (FlagName flag) (FlagScope flag) (registry w)); exact Hw.
Qed.

Lemma preserves_registerApp (d : Decls) : preserves registryStrings (registerApp d).
Proof.
  unfold registerApp.
  repeat (apply preserves_bind;
          [first [apply preserves_registerCommand | apply preserves_registerFlag]
          |intros _]).
  apply preserves_bind; [intros w Hw; exact Hw|]. intros r. apply preserves_ret.
Qed.

Lemma preserves_init (e : Env) : preserves registryStrings (init e).
Proof.
  intros w Hw. unfold init, checkGolangRuntimeVersion, bind, emit. cbn.
  destruct (userCurrent e); cbn; [|exact Hw].
  destruct (euid e =? 0); cbn; [exact Hw|].
  destruct (runtimeSupported e); exact Hw.
Qed.

Lemma preserves_program (humanizeBytes : Z -> string) (d : Decls) (e : Env) :
  preserves registryStrings (program humanizeBytes d e).
Proof.
  unfold program, main. apply preserves_bind; [apply preserves_init|intros _].
  apply preserves_bind; [apply preserves_registerApp|intros app].
  apply preserves_ret.
Qed.

(** In every state a run of the program reaches from its start, the
    not-found handler ends the process with the fatal status: it does not
    panic. *)
Lemma program_handler_fatal (humanizeBytes : Z -> string) (d : Decls) (e : Env)
      (command : string) :
  fst (CommandNotFound command (snd (program humanizeBytes d e initialWorld)))
  = Exited fatalExitCode.
Proof.
  assert (Hs : registryStrings (snd (program humanizeBytes d e initialWorld))).
  { apply preserves_program. reflexivity. }
  destruct (findClosestCommands_total _ command Hs) as [l [_ Hl]].
  rewrite (CommandNotFound_run _ _ _ Hl). reflexivity.
Qed.

(** ** Diagnostics *)

Lemma getSystemData_dom (humanizeBytes : Z -> string) (e : Env) :
  dom (getSystemData humanizeBytes e)
  = ({["PLATFORM"; "RUNTIME"; "MEM"]} : gset string).
Proof.
  unfold getSystemData. rewrite !dom_insert_L, dom_empty_L. set_solver.
Qed.

Lemma getSystemData_no_host (humanizeBytes : Z -> string) (e : Env) (err : string) :
  hostname e = Err err ->
  getSystemData humanizeBytes e
  = getSystemData humanizeBytes (withHostname (Ok "") e).
Proof. intros H. unfold getSystemData, withHostname. cbn. rewrite H. reflexivity. Qed.

(** * The claims of the specification *)

(** C1. With the commands "server", "gateway", "controller" and "version"
    registered, in any order and whatever their usage texts, the not-found
    path with token "contro" has the one suggestion "controller" and ends
    the process with the fatal status and the "did you mean" list of that
    one name; with token "zzz" it has no suggestion and still ends the
    process with the fatal, non-zero status; with the empty token the
    candidates are the four registered names. *)
Theorem not_found_scenario (cmds : list Command) :
  Permutation (map Name cmds) scenarioNames ->
  exists w,
    registerAll cmds initialWorld = (Done tt, w)
    /\ commands (registry w) = cmds
    /\ findClosestCommands (commandsTree (registry w)) "contro"
       = Some ["controller"]
    /\ CommandNotFound "contro" w
       = (Exited fatalExitCode,
          afterFatal w (notFoundHeader "contro" +:+ didYouMean ["controller"]
                          +:+ nl))
    /\ findClosestCommands (commandsTree (registry w)) "zzz" = Some []
    /\ CommandNotFound "zzz" w
       = (Exited fatalExitCode, afterFatal w (notFoundHeader "zzz" +:+ nl))
    /\ fatalExitCode <> 0
    /\ exists all,
         findClosestCommands (commandsTree (registry w)) "" = Some all
         /\ Permutation all scenarioNames.
Proof.
  intros Hp. pose proof (scenario_all_orders _ Hp) as Hs.
  eexists. split.
  { apply registerAll_run. cbn [initialWorld registry emptyRegistry commands map app].
    apply (Permutation_NoDup (Permutation_sym Hp)).
    unfold scenarioNames. repeat constructor; cbn; intuition discriminate. }
  cbn [registry commands commandsTree initialWorld emptyRegistry app].
  unfold scenarioHolds in Hs. fold (insertNames (map Name cmds) trie.NewTrie).
  apply andb_prop in Hs. destruct Hs as [Hs Hall].
  apply andb_prop in Hs. destruct Hs as [Hcontro Hzzz].
  apply bool_decide_eq_true in Hcontro. apply bool_decide_eq_true in Hzzz.
  split; [reflexivity|]. split; [exact Hcontro|]. split.
  { rewrite (CommandNotFound_run _ _ ["controller"]) by exact Hcontro.
    rewrite notFoundMessage_cons, append_assoc. reflexivity. }
  split; [exact Hzzz|]. split.
  { rewrite (CommandNotFound_run _ _ []) by exact Hzzz. reflexivity. }
  split; [discriminate|].
  destruct (findClosestCommands (insertNames (map Name cmds) trie.NewTrie) "")
    as [all|]; [|discriminate].
  exists all. split; [reflexivity|]. apply bool_decide_eq_true in Hall. exact Hall.
Qed.

Lemma not_found_scenario_witness :
  Permutation (map Name (map namedCommand scenarioNames)) scenarioNames
  /\ exists w,
       registerAll (map namedCommand scenarioNames) initialWorld = (Done tt, w)
       /\ findClosestCommands (commandsTree (registry w)) "contro"
          = Some ["controller"]
       /\ findClosestCommands (commandsTree (registry w)) "zzz" = Some []
       /\ fst (CommandNotFound "zzz" w) = Exited 1.
Proof.
  assert (Hp : Permutation (map Name (map namedCommand scenarioNames))
                           scenarioNames) by reflexivity.
  split; [exact Hp|].
  destruct (not_found_scenario (map namedCommand scenarioNames) Hp)
    as [w [Hw [_ [Hc [_ [Hz [Hf _]]]]]]].
  exists w. split; [exact Hw|]. split; [exact Hc|]. split; [exact Hz|].
  rewrite Hf. reflexivity.
Defined.

(** C2. For every token, in a state whose command trie holds strings only,
    the command-not-found handler ends the process with the fatal,
    non-zero exit status, whatever the closest commands are; they are part
    of the message written to the error stream and of nothing else: the
    registry and the trace stay as they were.  Every state a run of the
    program ends in is such a state, so the handler never panics there. *)
Theorem CommandNotFound_fatal :
  (forall (command : string) (w : World),
      registryStrings w ->
      exists closest,
        findClosestCommands (commandsTree (registry w)) command = Some closest
        /\ CommandNotFound command w
           = (Exited fatalExitCode,
              afterFatal w (notFoundMessage command closest +:+ nl))
        /\ fatalExitCode <> 0)
  /\ (forall (humanizeBytes : Z -> string) (d : Decls) (e : Env),
         registryStrings (snd (program humanizeBytes d e initialWorld))).
Proof.
  split.
  - intros command w Hs.
    destruct (findClosestCommands_total _ command Hs) as [l [_ Hl]].
    exists l. split; [exact Hl|]. split; [|discriminate].
    apply CommandNotFound_run. exact Hl.
  - intros humanizeBytes d e. apply preserves_program. reflexivity.
Qed.

Lemma CommandNotFound_fatal_witness :
  registryStrings (snd (registerAll (map namedCommand scenarioNames) initialWorld))
  /\ exists closest,
       findClosestCommands
         (commandsTree
            (registry (snd (registerAll (map namedCommand scenarioNames)
                                        initialWorld)))) "ver"
       = Some closest
       /\ fst (CommandNotFound "ver"
                 (snd (registerAll (map namedCommand scenarioNames) initialWorld)))
          = Exited 1.
Proof.
  assert (Hs : registryStrings
                 (snd (registerAll (map namedCommand scenarioNames) initialWorld)))
    by reflexivity.
  split; [exact Hs|].
  destruct (proj1 CommandNotFound_fatal "ver" _ Hs) as [closest [Hc [Hrun _]]].
  exists closest. split; [exact Hc|]. rewrite Hrun. reflexivity.
Defined.

(** C3. For every token whose prefix match is the list [l] of strings, the
    fatal message of the handler is the not-found sentence followed, when
    [l] is not empty, by the "did you mean" section that lists each
    matched name in the order of the prefix match; when [l] is empty the
    message is the not-found sentence alone. *)
Theorem CommandNotFound_message (command : string) (w : World) (l : list string) :
  trie.PrefixMatch command (commandsTree (registry w)) = map IString l ->
  exists msg,
    CommandNotFound command w = (Exited fatalExitCode, afterFatal w (msg +:+ nl))
    /\ (l = [] -> msg = notFoundHeader command)
    /\ (l <> [] -> msg = notFoundHeader command +:+ didYouMean l).
Proof.
  intros H. apply findClosestCommands_strings in H.
  exists (notFoundMessage command l). split; [apply CommandNotFound_run; exact H|].
  split.
  - intros ->. apply notFoundMessage_nil.
  - intros Hne. destruct l as [|c l]; [contradiction|]. apply notFoundMessage_cons.
Qed.

Lemma CommandNotFound_message_witness :
  trie.PrefixMatch "se"
    (commandsTree
       (registry (snd (registerAll (map namedCommand ["server"; "service"])
                                   initialWorld))))
  = map IString ["server"; "service"]
  /\ exists msg,
       CommandNotFound "se"
         (snd (registerAll (map namedCommand ["server"; "service"]) initialWorld))
       = (Exited fatalExitCode,
          afterFatal
            (snd (registerAll (map namedCommand ["server"; "service"])
                              initialWorld))
            (msg +:+ nl))
       /\ msg = notFoundHeader "se" +:+ didYouMean ["server"; "service"].
Proof.
  assert (Hm : trie.PrefixMatch "se"
                 (commandsTree
                    (registry (snd (registerAll
                                      (map namedCommand ["server"; "service"])
                                      initialWorld))))
               = map IString ["server"; "service"]) by reflexivity.
  split; [exact Hm|].
  destruct (CommandNotFound_message "se" _ _ Hm) as [msg [Hrun [_ Hmsg]]].
  exists msg. split; [exact Hrun|]. apply Hmsg. discriminate.
Defined.

(** C4. Every snapshot of [getSystemData] has exactly the keys "PLATFORM",
    "RUNTIME" and "MEM", whatever the host and the runtime answer. *)
Theorem getSystemData_keys (humanizeBytes : Z -> string) (e : Env) :
  dom (getSystemData humanizeBytes e)
  = ({["PLATFORM"; "RUNTIME"; "MEM"]} : gset string).
Proof. apply getSystemData_dom. Qed.

(** C5. When the host name cannot be read, [getSystemData] takes the empty
    string for it: the snapshot is the one of a host with the empty name,
    its "PLATFORM" entry has the empty host field, and all three keys are
    there. *)
Theorem getSystemData_hostname_failure
        (humanizeBytes : Z -> string) (e : Env) (err : string) :
  hostname e = Err err ->
  getSystemData humanizeBytes e
  = getSystemData humanizeBytes (withHostname (Ok "") e)
  /\ getSystemData humanizeBytes e !! "PLATFORM"
     = Some ("Host: " +:+ "" +:+ " | OS: " +:+ GOOS e +:+ " | Arch: " +:+ GOARCH e)
  /\ dom (getSystemData humanizeBytes e)
     = ({["PLATFORM"; "RUNTIME"; "MEM"]} : gset string).
Proof.
  intros H. split; [exact (getSystemData_no_host _ _ _ H)|].
  split; [|apply getSystemData_dom].
  unfold getSystemData. rewrite H. apply lookup_insert_eq.
Qed.

Lemma getSystemData_hostname_failure_witness :
  hostname exampleEnv = Err "hostname: not available"
  /\ getSystemData plainBytes exampleEnv !! "PLATFORM"
     = Some "Host:  | OS: linux | Arch: amd64".
Proof.
  assert (H : hostname exampleEnv = Err "hostname: not available") by reflexivity.
  split; [exact H|].
  destruct (getSystemData_hostname_failure plainBytes exampleEnv _ H)
    as [_ [Hp _]].
  rewrite Hp. reflexivity.
Defined.

(** C6. Registering a command whose name is already in the registry fails
    with the configuration error of a duplicate command and leaves the
    process state, so the ordered command list and the trie, as it was
    before the attempt. *)
Theorem registerCommand_duplicate (command : Command) (w : World) :
  In (Name command) (map Name (commands (registry w))) ->
  registerCommand command w = (Failed (DuplicateCommand (Name command)), w)
  /\ commands (registry (snd (registerCommand command w)))
     = commands (registry w)
  /\ commandsTree (registry (snd (registerCommand command w)))
     = commandsTree (registry w).
Proof.
  intros H. apply hasCommand_In in H.
  rewrite (registerCommand_exists _ _ H). repeat split.
Qed.

Lemma registerCommand_duplicate_witness :
  In (Name (mkCommand "server" "Start the server" ""))
     (map Name (commands (registry
        (snd (registerAll (map namedCommand scenarioNames) initialWorld)))))
  /\ registerCommand (mkCommand "server" "Start the server" "")
       (snd (registerAll (map namedCommand scenarioNames) initialWorld))
     = (Failed (DuplicateCommand "server"),
        snd (registerAll (map namedCommand scenarioNames) initialWorld)).
Proof.
  assert (H : In (Name (mkCommand "server" "Start the server" ""))
                 (map Name (commands (registry
                    (snd (registerAll (map namedCommand scenarioNames)
                                      initialWorld))))))
    by (left; reflexivity).
  split; [exact H|].
  exact (proj1 (registerCommand_duplicate _ _ H)).
Defined.

(** C7. When the effective user id is 0, a run of the program ends during
    [init] with the fatal, non-zero exit status: [main] is not entered, and
    the registry is the one the run started with, so from the start of the
    process no command and no flag is registered. *)
Theorem root_terminates_before_registration
        (humanizeBytes : Z -> string) (d : Decls) (e : Env) (w : World) :
  euid e = 0 ->
  exists code w',
    init e w = (Exited code, w')
    /\ program humanizeBytes d e w = (Exited code, w')
    /\ code <> 0
    /\ registry w' = registry w
    /\ (w = initialWorld ->
        commands (registry w') = [] /\ flags (registry w') = []
        /\ commandsTree (registry w') = trie.NewTrie).
Proof.
  intros H. unfold program, init, bind, emit. cbn.
  destruct (userCurrent e) as [u|err]; cbn.
  - rewrite H. cbn. eexists _, _. split; [reflexivity|]. split; [reflexivity|].
    cbn. split; [discriminate|]. split; [reflexivity|].
    intros ->. repeat split.
  - eexists _, _. split; [reflexivity|]. split; [reflexivity|].
    cbn. split; [discriminate|]. split; [reflexivity|].
    intros ->. repeat split.
Qed.

Lemma root_terminates_before_registration_witness :
  euid rootEnv = 0
  /\ exists code w',
       program plainBytes exampleDecls rootEnv initialWorld = (Exited code, w')
       /\ code <> 0
       /\ commands (registry w') = [] /\ flags (registry w') = [].
Proof.
  assert (H : euid rootEnv = 0) by reflexivity.
  split; [exact H|].
  destruct (root_terminates_before_registration plainBytes exampleDecls
              rootEnv initialWorld H) as [code [w' [_ [Hrun [Hc [_ Hreg]]]]]].
  exists code, w'. split; [exact Hrun|]. split; [exact Hc|].
  destruct (Hreg eq_refl) as [Hcs [Hfs _]]. split; assumption.
Defined.

(** C8. [init] asks for the current user first: what it asks of its
    environment is a non-empty beginning of the sequence user lookup,
    effective user id, runtime version check.  When the user cannot be
    found, the process ends there with the fatal, non-zero exit status
    after that one lookup: the message goes to the error stream, neither
    the user id nor the runtime version is looked at, [main] is not
    entered, and the registry is untouched. *)
Theorem identity_resolved_first
        (humanizeBytes : Z -> string) (d : Decls) (e : Env) (w : World) :
  (exists k, (k < length initSteps)%nat
             /\ trace (snd (init e w)) = trace w ++ firstn (S k) initSteps)
  /\ (forall err, userCurrent e = Err err ->
        init e w
        = (Exited fatalExitCode,
           {| registry := registry w;
              stderr := stderr w ++ [noUserMessage err];
              trace := trace w ++ [EvUserCurrent] |})
        /\ program humanizeBytes d e w
           = (Exited fatalExitCode,
              {| registry := registry w;
                 stderr := stderr w ++ [noUserMessage err];
                 trace := trace w ++ [EvUserCurrent] |})
        /\ fatalExitCode <> 0).
Proof.
  split.
  - unfold init, checkGolangRuntimeVersion, bind, emit. cbn.
    destruct (userCurrent e) as [u|err]; cbn.
    + destruct (euid e =? 0); cbn.
      * exists 1%nat. split; [cbn; lia|]. rewrite <- app_assoc. reflexivity.
      * exists 2%nat. split; [cbn; lia|].
        destruct (runtimeSupported e); cbn; rewrite <- !app_assoc; reflexivity.
    + exists 0%nat. split; [cbn; lia|]. reflexivity.
  - intros err H. unfold program, init, bind, emit. cbn. rewrite H. cbn.
    split; [reflexivity|]. split; [reflexivity|discriminate].
Qed.

Lemma identity_resolved_first_witness :
  userCurrent noUserEnv = Err "user: Current not implemented"
  /\ program plainBytes exampleDecls noUserEnv initialWorld
     = (Exited 1,
        {| registry := emptyRegistry;
           stderr := [noUserMessage "user: Current not implemented"];
           trace := [EvUserCurrent] |}).
Proof.
  assert (H : userCurrent noUserEnv = Err "user: Current not implemented")
    by reflexivity.
  split; [exact H|].
  destruct (identity_resolved_first plainBytes exampleDecls noUserEnv
              initialWorld) as [_ Hfail].
  destruct (Hfail _ H) as [_ [Hrun _]].
  rewrite Hrun. reflexivity.
Defined.

(** C9. For every [int64] input, [getFSType] returns a string that is not
    empty: the name the table maps the lowercase hexadecimal rendering of
    the input to when that rendering is a key, and "UNKNOWN" exactly when
    it is not; the rendering reads back as the input; every negative input
    yields "UNKNOWN". *)
Theorem getFSType_total (z : Z) :
  disk.int64_range z ->
  disk.getFSType z <> ""
  /\ strconv.parseHex (strconv.FormatInt z 16) = Some z
  /\ (forall name,
        disk.fsType2StringMap !! strconv.FormatInt z 16 = Some name ->
        disk.getFSType z = name)
  /\ (disk.fsType2StringMap !! strconv.FormatInt z 16 = None <->
      disk.getFSType z = "UNKNOWN")
  /\ (z < 0 -> disk.getFSType z = "UNKNOWN").
Proof.
  intros Hz. unfold disk.getFSType.
  split; [|split; [exact (FormatInt_hex_roundtrip z Hz)|]];
    destruct (disk.fsType2StringMap !! strconv.FormatInt z 16) as [v|] eqn:E.
  - exact (proj1 (fsType2StringMap_value _ _ E)).
  - discriminate.
  - destruct (fsType2StringMap_value _ _ E) as [Hne Hunk].
    split; [congruence|]. split.
    + split; [discriminate|]. intros Hv. contradiction.
    + intros Hneg. destruct (FormatInt_negative z 16 Hneg) as [body Hb].
      rewrite Hb, fsType2StringMap_no_sign in E. discriminate.
  - split; [discriminate|]. split; [|reflexivity].
    split; reflexivity.
Qed.

Lemma getFSType_total_witness :
  disk.int64_range 61267
  /\ disk.getFSType 61267 = "EXT4"
  /\ disk.int64_range (- 2 ^ 63)
  /\ disk.getFSType (- 2 ^ 63) = "UNKNOWN".
Proof.
  assert (H1 : disk.int64_range 61267) by (unfold disk.int64_range; lia).
  assert (H2 : disk.int64_range (- 2 ^ 63)) by (unfold disk.int64_range; lia).
  split; [exact H1|]. split.
  - destruct (getFSType_total 61267 H1) as [_ [_ [Hname _]]].
    apply Hname. vm_compute. reflexivity.
  - split; [exact H2|].
    destruct (getFSType_total (- 2 ^ 63) H2) as [_ [_ [_ [_ Hneg]]]].
    apply Hneg. lia.
Defined.

(** C10. For every token whose matched values are all strings,
    [findClosestCommands] returns a list, and that list is the result of
    [PrefixMatch] with each value as the string it holds: the same length,
    the same order, nothing added and nothing dropped.  In every state a
    run of the program ends in, the matched values of every token are all
    strings. *)
Theorem findClosestCommands_refines :
  (forall (tree : trie.Node iface) (command : string),
      forallb isString (trie.PrefixMatch command tree) = true ->
      exists l,
        findClosestCommands tree command = Some l
        /\ map IString l = trie.PrefixMatch command tree
        /\ length l = length (trie.PrefixMatch command tree)
        /\ (forall i, option_map IString (nth_error l i)
                      = nth_error (trie.PrefixMatch command tree) i))
  /\ (forall (humanizeBytes : Z -> string) (d : Decls) (e : Env)
             (command : string),
         forallb isString
           (trie.PrefixMatch command
              (commandsTree
                 (registry (snd (program humanizeBytes d e initialWorld)))))
         = true).
Proof.
  split.
  - intros tree command Hs.
    rewrite forallb_forall, <- List.Forall_forall in Hs.
    destruct (strings_are_mapped _ Hs) as [l Hm].
    exists l. split; [apply findClosestCommands_strings; exact Hm|].
    split; [symmetry; exact Hm|]. rewrite Hm. split.
    + rewrite length_map. reflexivity.
    + intros i. rewrite nth_error_map. reflexivity.
  - intros humanizeBytes d e command.
    assert (Hs : registryStrings (snd (program humanizeBytes d e initialWorld))).
    { apply preserves_program. reflexivity. }
    apply forallb_forall. intros v Hv.
    apply stringsOnly_Forall in Hs. rewrite List.Forall_forall in Hs.
    apply Hs. apply (PrefixMatch_walk command). exact Hv.
Qed.

Lemma findClosestCommands_refines_witness :
  forallb isString
    (trie.PrefixMatch "ser"
       (insertNames ["server"; "service"; "version"] trie.NewTrie)) = true
  /\ exists l,
       findClosestCommands
         (insertNames ["server"; "service"; "version"] trie.NewTrie) "ser"
       = Some l
       /\ map IString l = [IString "server"; IString "service"].
Proof.
  assert (Hs : forallb isString
                 (trie.PrefixMatch "ser"
                    (insertNames ["server"; "service"; "version"] trie.NewTrie))
               = true) by reflexivity.
  split; [exact Hs|].
  destruct (proj1 findClosestCommands_refines _ "ser" Hs) as [l [Hl [Hm _]]].
  exists l. split; [exact Hl|]. rewrite Hm. reflexivity.
Defined.

(** ** Runs on concrete inputs *)

Example FormatInt_ef53 : strconv.FormatInt 61267 16 = "ef53".
Proof. reflexivity. Qed.

Example FormatInt_neg : strconv.FormatInt (-255) 16 = "-ff".
Proof. reflexivity. Qed.

Example FormatInt_min : strconv.FormatInt (- 2 ^ 63) 16 = "-8000000000000000".
Proof. reflexivity. Qed.

Example FormatInt_max : strconv.FormatInt (2 ^ 63 - 1) 16 = "7fffffffffffffff".
Proof. reflexivity. Qed.

Example Itoa_128 : strconv.Itoa 128 = "128".
Proof. reflexivity. Qed.

Example getFSType_ext4 : disk.getFSType 61267 = "EXT4".
Proof. vm_compute. reflexivity. Qed.

Example getFSType_tmpfs : disk.getFSType 16914836 = "TMPFS".
Proof. vm_compute. reflexivity. Qed.

Example getFSType_zero : disk.getFSType 0 = "UNKNOWN".
Proof. vm_compute. reflexivity. Qed.

Example getFSType_minus_ef53 : disk.getFSType (-61267) = "UNKNOWN".
Proof. vm_compute. reflexivity. Qed.

(** A regular user: [init] passes, and [main] registers the four commands
    and the eight flags in source order. *)
Example program_regular_user :
  let run := program plainBytes exampleDecls exampleEnv initialWorld in
  map Name (commands (registry (snd run)))
  = ["xl"; "server"; "controller"; "version"]
  /\ map FlagName (flags (registry (snd run)))
     = ["address"; "address-controller"; "address-server-rpc"; "ratelimit";
        "anonymous"; "cert"; "key"; "json"]
  /\ trace (snd run) = [EvUserCurrent; EvGeteuid; EvCheckRuntime]
  /\ stderr (snd run) = []
  /\ match fst run with
     | Done app => map Name (AppCommands app)
                   = ["xl"; "server"; "controller"; "version"]
     | _ => False
     end.
Proof. vm_compute. repeat split. Qed.

(** The handler after that run: "ver" has the one candidate "version". *)
Example program_not_found_ver :
  CommandNotFound "ver"
    (snd (program plainBytes exampleDecls exampleEnv initialWorld))
  = (Exited 1,
     afterFatal (snd (program plainBytes exampleDecls exampleEnv initialWorld))
       ("‘ver’ is not a minio-xl sub-command. See ‘minio-xl help’."
          +:+ nl +:+ nl +:+ "Did you mean one of these?" +:+ nl
          +:+ "        ‘version’" +:+ nl +:+ nl)).
Proof. vm_compute. reflexivity. Qed.

(** A trie holding a value that is not a string makes the type assertion of
    [findClosestCommands] panic. *)
Example findClosestCommands_not_string :
  findClosestCommands (trie.Insert "xl" (IInt 7) trie.NewTrie) "x" = None.
Proof. reflexivity. Qed.

(** The snapshot of a host whose name cannot be read. *)
Example getSystemData_example :
  map_to_list (getSystemData plainBytes exampleEnv)
  ≡ₚ [("PLATFORM", "Host:  | OS: linux | Arch: amd64");
      ("RUNTIME", "Version: go1.5.1 | CPUs: 4");
      ("MEM", "Used: 1024B | Allocated: 4096B | Used-Heap: 512B | Allocated-Heap: 2048B")].
Proof.
  unfold getSystemData.
  rewrite !map_to_list_insert, map_to_list_empty by (vm_compute; reflexivity).
  reflexivity.
Qed.

(** * Further properties *)

(** ** Filesystem types by number *)

Lemma getFSType_known (z : Z) (name : string) :
  disk.int64_range z ->
  disk.fsType2StringMap !! strconv.FormatInt z 16 = Some name ->
  In (z, name) fsTypeMagics.
Proof.
  intros Hz E. pose proof (FormatInt_hex_roundtrip z Hz) as Hr.
  apply fsType2StringMap_entry in E. cbn in E.
  repeat (destruct E as [E|E];
          [injection E as E <-; rewrite <- E in Hr; vm_compute in Hr;
           injection Hr as <-; cbn; tauto|]).
  destruct E.
Qed.


(** X1. On the [int64] range, [getFSType] is the lookup of the input among
    the twelve magic numbers that the keys of the table write in lowercase
    hexadecimal: the name of the entry for those numbers, "UNKNOWN" for
    every other number. *)
Theorem getFSType_by_magic (z : Z) :
  disk.int64_range z -> disk.getFSType z = fsTypeOfMagic z.
Proof.
  intros Hz. unfold disk.getFSType.
  destruct (disk.fsType2StringMap !! strconv.FormatInt z 16) as [name|] eqn:E.
  - apply (getFSType_known z name Hz) in E. cbn in E.
    repeat (destruct E as [E|E]; [injection E as <- <-; reflexivity|]).
    destruct E.
  - unfold fsTypeOfMagic.
    destruct (find (fun entry => fst entry =? z) fsTypeMagics) as [[m name]|] eqn:F;
      [|reflexivity].
    apply find_some in F. destruct F as [Hin Hm]. cbn [fst] in Hm.
    apply Z.eqb_eq in Hm. subst m. exfalso. cbn in Hin.
    repeat (destruct Hin as [Hin|Hin];
            [injection Hin as <- <-; vm_compute in E; discriminate E|]).
    destruct Hin.
Qed.

Lemma getFSType_by_magic_witness :
  disk.int64_range 0x58465342
  /\ disk.getFSType 0x58465342 = "XFS"
  /\ disk.int64_range 0x58465343
  /\ disk.getFSType 0x58465343 = "UNKNOWN".
Proof.
  assert (H1 : disk.int64_range 0x58465342) by (unfold disk.int64_range; lia).
  assert (H2 : disk.int64_range 0x58465343) by (unfold disk.int64_range; lia).
  split; [exact H1|]. split; [rewrite (getFSType_by_magic _ H1); reflexivity|].
  split; [exact H2|]. rewrite (getFSType_by_magic _ H2). reflexivity.
Defined.


(** X2. A name other than "UNKNOWN" is returned for one [int64] only: two
    inputs with the same known filesystem type are the same number. *)
Theorem getFSType_injective (z1 z2 : Z) :
  disk.int64_range z1 -> disk.int64_range z2 ->
  disk.getFSType z1 = disk.getFSType z2 ->
  disk.getFSType z1 <> "UNKNOWN" ->
  z1 = z2.
Proof.
  intros H1 H2 Heq Hk. unfold disk.getFSType in *.
  destruct (disk.fsType2StringMap !! strconv.FormatInt z1 16) as [n1|] eqn:E1;
    [|contradiction].
  destruct (disk.fsType2StringMap !! strconv.FormatInt z2 16) as [n2|] eqn:E2.
  - subst n2. apply fsType2StringMap_entry in E1, E2.
    pose proof (fsTypeTable_names_unique _ _ _ E1 E2) as Hkeys.
    pose proof (FormatInt_hex_roundtrip z1 H1) as R1.
    pose proof (FormatInt_hex_roundtrip z2 H2) as R2.
    rewrite Hkeys in R1. congruence.
  - subst n1. destruct (fsType2StringMap_value _ _ E1) as [_ Hu]. contradiction.
Qed.

Lemma getFSType_injective_witness :
  disk.int64_range 61267 /\ disk.int64_range 0xef53
  /\ disk.getFSType 61267 = disk.getFSType 0xef53
  /\ disk.getFSType 61267 <> "UNKNOWN"
  /\ 61267 = 0xef53.
Proof.
  assert (H1 : disk.int64_range 61267) by (unfold disk.int64_range; lia).
  assert (H2 : disk.int64_range 0xef53) by (unfold disk.int64_range; lia).
  assert (He : disk.getFSType 61267 = disk.getFSType 0xef53) by reflexivity.
  assert (Hk : disk.getFSType 61267 <> "UNKNOWN") by (vm_compute; discriminate).
  split; [exact H1|]. split; [exact H2|]. split; [exact He|]. split; [exact Hk|].
  exact (getFSType_injective _ _ H1 H2 He Hk).
Defined.

(** ** Start-up *)

Lemma init_Done_iff (e : Env) (w w' : World) :
  init e w = (Done tt, w')
  <-> (exists u, userCurrent e = Ok u) /\ euid e <> 0
      /\ runtimeSupported e = true /\ w' = afterInit w.
Proof.
  unfold init, checkGolangRuntimeVersion, bind, emit, afterInit, initSteps. cbn.
  destruct (userCurrent e) as [u|err]; cbn.
  - destruct (euid e =? 0) eqn:E; cbn.
    + apply Z.eqb_eq in E. split; [discriminate|]. intros [_ [H _]]. contradiction.
    + apply Z.eqb_neq in E. destruct (runtimeSupported e); cbn.
      * rewrite <- !app_assoc. cbn. split.
        -- intros [= <-]. split; [exists u; reflexivity|]. repeat split. exact E.
        -- intros [_ [_ [_ ->]]]. reflexivity.
      * split; [discriminate|]. intros [_ [_ [H _]]]. discriminate.
  - split; [discriminate|]. intros [[u H] _]. discriminate.
Qed.


(** X3. [init] returns normally exactly when the current user is found, the
    effective user id is not 0 and the runtime is a supported one; it has
    then asked its three questions in source order and has written nothing
    to the error stream nor touched the registry. *)
Theorem init_succeeds_iff (e : Env) (w w' : World) :
  init e w = (Done tt, w')
  <-> (exists u, userCurrent e = Ok u) /\ euid e <> 0
      /\ runtimeSupported e = true /\ w' = afterInit w.
Proof. apply init_Done_iff. Qed.

(** X4. [init] never changes the registry, and it either returns normally
    with the error stream as it was, or ends the process with the fatal
    status after exactly one message on the error stream; it neither
    panics nor reports a configuration error. *)
Theorem init_one_message (e : Env) (w : World) :
  registry (snd (init e w)) = registry w
  /\ ((fst (init e w) = Done tt /\ stderr (snd (init e w)) = stderr w)
      \/ (exists msg, fst (init e w) = Exited fatalExitCode
                      /\ stderr (snd (init e w)) = stderr w ++ [msg])).
Proof.
  unfold init, checkGolangRuntimeVersion, bind, emit. cbn.
  destruct (userCurrent e) as [u|err]; cbn.
  - destruct (euid e =? 0); cbn.
    + split; [reflexivity|]. right. eexists. split; reflexivity.
    + destruct (runtimeSupported e); cbn.
      * split; [reflexivity|]. left. split; reflexivity.
      * split; [reflexivity|]. right. eexists. split; reflexivity.
  - split; [reflexivity|]. right. eexists. split; reflexivity.
Qed.


(** ** The loop and the handler in every state *)

Lemma assert_loop_result (vs : list iface) (l : list string) :
  fold_left
    (fun closestCommands value =>
       match closestCommands, assertString value with
       | Some cs, Some s => Some (cs ++ [s])
       | _, _ => None
       end) vs (Some []) = Some l ->
  vs = map IString l.
Proof.
  intros E. destruct (forallb isString vs) eqn:F.
  - rewrite forallb_forall, <- List.Forall_forall in F.
    destruct (strings_are_mapped _ F) as [l' ->].
    rewrite assert_loop in E. injection E as <-. reflexivity.
  - assert (Hp : exists v, In v vs /\ isString v = false).
    { clear E. induction vs as [|v vs IH]; [discriminate|].
      cbn in F. destruct (isString v) eqn:Hv.
      - destruct (IH F) as [x [Hx Hs]]. exists x. split; [right|]; assumption.
      - exists v. split; [left; reflexivity|exact Hv]. }
    apply (assert_loop_panics vs []) in Hp. rewrite Hp in E. discriminate.
Qed.

(** X5. In every state and for every token, the handler of
    [app.CommandNotFound] does not return to its caller: either some
    matched value is not a string and it panics with the state untouched,
    or the match is a list of strings and it ends the process with the
    fatal status, its message on the error stream, the registry and the
    trace as they were. *)
Theorem CommandNotFound_never_returns (command : string) (w : World) :
  (CommandNotFound command w = (Panicked, w)
   /\ exists v, In v (trie.PrefixMatch command (commandsTree (registry w)))
                /\ isString v = false)
  \/ (exists l,
        trie.PrefixMatch command (commandsTree (registry w)) = map IString l
        /\ CommandNotFound command w
           = (Exited fatalExitCode,
              afterFatal w (notFoundMessage command l +:+ nl))).
Proof.
  destruct (findClosestCommands (commandsTree (registry w)) command) as [l|] eqn:E.
  - right. exists l. split; [|apply CommandNotFound_run; exact E].
    apply assert_loop_result. exact E.
  - left. split.
    + unfold CommandNotFound, bind, getRegistry. rewrite E. reflexivity.
    + apply (assert_loop_panics _ []). exact E.
Qed.

(** X6. [findClosestCommands] returns the list [l] exactly when the prefix
    match is [l] with each string held as an interface value, and it panics
    exactly when some matched value is not a string. *)
Theorem findClosestCommands_outcome (tree : trie.Node iface) (command : string) :
  (forall l, findClosestCommands tree command = Some l
             <-> trie.PrefixMatch command tree = map IString l)
  /\ (findClosestCommands tree command = None
      <-> exists v, In v (trie.PrefixMatch command tree) /\ isString v = false).
Proof.
  split.
  - intros l. split; [apply assert_loop_result|apply findClosestCommands_strings].
  - apply assert_loop_panics.
Qed.

(** ** Diagnostics *)

(** X7. Whatever [os.Hostname] answers, a name or an error, every entry of
    the snapshot other than "PLATFORM" is the same: the host name has a
    part in the "PLATFORM" entry only. *)
Theorem getSystemData_hostname_frame
        (humanizeBytes : Z -> string) (e : Env) (h : result string) (k : string) :
  k <> "PLATFORM" ->
  getSystemData humanizeBytes (withHostname h e) !! k
  = getSystemData humanizeBytes e !! k.
Proof.
  intros Hk. unfold getSystemData.
  rewrite !(lookup_insert_ne _ "PLATFORM" k) by congruence. reflexivity.
Qed.

Lemma getSystemData_hostname_frame_witness :
  "MEM" <> "PLATFORM"
  /\ getSystemData plainBytes (withHostname (Ok "node1") exampleEnv) !! "MEM"
     = getSystemData plainBytes exampleEnv !! "MEM".
Proof.
  assert (H : "MEM" <> "PLATFORM") by discriminate.
  split; [exact H|].
  exact (getSystemData_hostname_frame plainBytes exampleEnv (Ok "node1") "MEM" H).
Defined.

Lemma decVal_digit (d : Z) : 0 <= d < 10 -> decVal (strconv.digit d) = Some d.
Proof.
  intros H.
  assert (Hc : In d [0;1;2;3;4;5;6;7;8;9]) by (simpl; lia).
  simpl in Hc.
  repeat (destruct Hc as [<-|Hc]; [reflexivity|]). destruct Hc.
Qed.

Lemma divLoop_parse (fuel : nat) : forall (u : Z) (rest : string),
  0 <= u < 10 ^ Z.of_nat (S fuel) ->
  parseDecDigits (strconv.divLoop fuel 10 u rest) 0 = parseDecDigits rest u.
Proof.
  induction fuel as [|fuel IH]; intros u rest Hu.
  - change (10 ^ Z.of_nat 1) with 10 in Hu.
    cbn [strconv.divLoop parseDecDigits].
    rewrite Z.mod_small by lia. rewrite decVal_digit by lia. reflexivity.
  - cbn [strconv.divLoop].
    destruct (10 <=? u) eqn:E.
    + apply Z.leb_le in E. cbv zeta.
      rewrite Nat2Z.inj_succ, Z.pow_succ_r in Hu by lia.
      pose proof (Z.div_mod u 10 ltac:(lia)) as Hdm.
      pose proof (Z.mod_pos_bound u 10 ltac:(lia)) as Hmb.
      rewrite IH.
      * cbn [parseDecDigits].
        rewrite decVal_digit by lia. f_equal. lia.
      * split; [apply Z.div_pos; lia|].
        apply Z.div_lt_upper_bound; lia.
    + apply Z.leb_gt in E. cbn [parseDecDigits].
      rewrite decVal_digit by lia. reflexivity.
Qed.

Lemma Itoa_roundtrip (n : Z) :
  disk.int64_range n -> parseDec (strconv.Itoa n) = Some n.
Proof.
  unfold disk.int64_range. intros Hn.
  unfold strconv.Itoa, strconv.FormatInt, strconv.formatBits.
  change (strconv.isPowerOfTwo 10) with false. cbv iota.
  assert (Hpow : 2 ^ 64 < 10 ^ Z.of_nat 65) by (vm_compute; reflexivity).
  destruct (n <? 0) eqn:E.
  - apply Z.ltb_lt in E. cbn [parseDec].
    assert (Hu : strconv.uint64 (- strconv.uint64 n) = - n).
    { unfold strconv.uint64.
      rewrite <- (Z.mod_add n 1) by lia. rewrite (Z.mod_small (n + 1 * 2 ^ 64)) by lia.
      rewrite <- (Z.mod_add _ 1) by lia. rewrite Z.mod_small by lia. lia. }
    rewrite Hu.
    change (if Ascii.eqb "-" "-" then ?a else ?b) with a.
    rewrite divLoop_parse by lia.
    cbn. f_equal. lia.
  - apply Z.ltb_ge in E.
    assert (Hu : strconv.uint64 n = n) by (apply Z.mod_small; lia).
    rewrite Hu.
    assert (Hp : forall s, parseDecDigits s 0 = Some n -> parseDec s = Some n).
    { intros s Hs. unfold parseDec. destruct s as [|c s']; [exact Hs|].
      destruct c as [[] [] [] [] [] [] [] []]; try exact Hs.
      cbn in Hs. discriminate. }
    apply Hp, divLoop_parse. lia.
Qed.

(** X8. For a number of CPUs in the range of a 64-bit [int], the "RUNTIME"
    entry of the snapshot is the runtime version followed by a CPUs field
    that is a decimal numeral and reads back as that number. *)
Theorem getSystemData_runtime_cpus (humanizeBytes : Z -> string) (e : Env) :
  disk.int64_range (numCPU e) ->
  exists cpus,
    getSystemData humanizeBytes e !! "RUNTIME"
    = Some ("Version: " +:+ goVersion e +:+ " | CPUs: " +:+ cpus)
    /\ parseDec cpus = Some (numCPU e).
Proof.
  intros Hn. exists (strconv.Itoa (numCPU e)). split.
  - unfold getSystemData.
    rewrite lookup_insert_ne by discriminate. apply lookup_insert_eq.
  - apply Itoa_roundtrip. exact Hn.
Qed.

Lemma getSystemData_runtime_cpus_witness :
  disk.int64_range (numCPU exampleEnv)
  /\ exists cpus,
       getSystemData plainBytes exampleEnv !! "RUNTIME"
       = Some ("Version: " +:+ goVersion exampleEnv +:+ " | CPUs: " +:+ cpus)
       /\ parseDec cpus = Some 4.
Proof.
  assert (H : disk.int64_range (numCPU exampleEnv))
    by (unfold disk.int64_range; cbn; lia).
  split; [exact H|].
  exact (getSystemData_runtime_cpus plainBytes exampleEnv H).
Defined.

(** ** Registration of the application *)

Lemma bind_Done_inv {A B} (m : M A) (k : A -> M B) (w w' : World) (b : B) :
  bind m k w = (Done b, w') ->
  exists a w1, m w = (Done a, w1) /\ k a w1 = (Done b, w').
Proof.
  unfold bind. destruct (m w) as [[a|code|err|] w1]; try discriminate.
  intros H. exists a, w1. split; [reflexivity|exact H].
Qed.

Lemma registerCommand_Done_inv (c : Command) (w w' : World) :
  registerCommand c w = (Done tt, w') ->
  ~ In (Name c) (map Name (commands (registry w)))
  /\ w' = {| registry :=
               {| commands := commands (registry w) ++ [c];
                  flags := flags (registry w);
                  commandsTree := trie.Insert (Name c) (IString (Name c))
                                              (commandsTree (registry w)) |};
             stderr := stderr w; trace := trace w |}.
Proof.
  destruct (hasCommand (Name c) (registry w)) eqn:E.
  - rewrite (registerCommand_exists _ _ E). discriminate.
  - rewrite (registerCommand_fresh _ _ E). intros [= <-]. split; [|reflexivity].
    intros Hin. apply hasCommand_In in Hin. congruence.
Qed.

Lemma registerAll_Done_inv (cmds : list Command) : forall w w',
  registerAll cmds w = (Done tt, w') ->
  List.NoDup (map Name cmds)
  /\ (forall c, In c cmds -> ~ In (Name c) (map Name (commands (registry w))))
  /\ w' = {| registry :=
               {| commands := commands (registry w) ++ cmds;
                  flags := flags (registry w);
                  commandsTree := insertNames (map Name cmds)
                                              (commandsTree (registry w)) |};
             stderr := stderr w; trace := trace w |}.
Proof.
  induction cmds as [|c cmds IH]; intros w w' H.
  - cbn in H. injection H as <-. split; [constructor|]. split; [intros c []|].
    destruct w as [[cs fs t] err tr]. cbn. rewrite app_nil_r. reflexivity.
  - cbn [registerAll] in H. apply bind_Done_inv in H.
    destruct H as [[] [w1 [H1 H2]]].
    apply registerCommand_Done_inv in H1. destruct H1 as [Hfresh ->].
    apply IH in H2. cbn [registry commands flags commandsTree stderr trace] in H2.
    destruct H2 as [Hnd [Hnew ->]]. split; [|split].
    + cbn [map]. constructor; [|exact Hnd].
      intros Hin. apply in_map_iff in Hin. destruct Hin as [c' [Hn Hc']].
      apply (Hnew c' Hc'). rewrite map_app. apply in_or_app. right.
      left. symmetry. exact Hn.
    + intros c' [<-|Hc']; [exact Hfresh|].
      intros Hin. apply (Hnew c' Hc'). rewrite map_app. apply in_or_app.
      left. exact Hin.
    + rewrite <- app_assoc. reflexivity.
Qed.

Lemma scope_eqb_eq (a b : scope) : scope_eqb a b = true <-> a = b.
Proof.
  destruct a as [|x], b as [|y]; cbn; split; try discriminate; try reflexivity.
  - intros H. apply String.eqb_eq in H. congruence.
  - intros [= ->]. apply String.eqb_refl.
Qed.

Lemma hasFlag_In (name : string) (sc : scope) (r : Registry) :
  hasFlag name sc r = true <-> In (name, sc) (map flagKey (flags r)).
Proof.
  unfold hasFlag. rewrite existsb_exists, in_map_iff.
  split; intros [f [H1 H2]]; exists f.
  - apply andb_prop in H2. destruct H2 as [Hn Hs].
    apply String.eqb_eq in Hn. apply scope_eqb_eq in Hs.
    split; [unfold flagKey; congruence|exact H1].
  - split; [exact H2|]. injection H1 as Hn Hs.
    apply andb_true_intro. split; [apply String.eqb_eq|apply scope_eqb_eq];
      assumption.
Qed.

Lemma registerFlag_exists (flag : Flag) (w : World) :
  hasFlag (FlagName flag) (FlagScope flag) (registry w) = true ->
  registerFlag flag w = (Failed (DuplicateFlag (FlagName flag)), w).
Proof.
  intros H. unfold registerFlag, bind, getRegistry. rewrite H. reflexivity.
Qed.

Lemma registerFlag_fresh (flag : Flag) (w : World) :
  hasFlag (FlagName flag) (FlagScope flag) (registry w) = false ->
  registerFlag flag w
  = (Done tt,
     {| registry :=
          {| commands := commands (registry w);
             flags := flags (registry w) ++ [flag];
             commandsTree := commandsTree (registry w) |};
        stderr := stderr w; trace := trace w |}).
Proof.
  intros H. unfold registerFlag, bind, getRegistry. rewrite H. reflexivity.
Qed.

Lemma registerFlags_run (fs : list Flag) : forall w,
  List.NoDup (map flagKey (flags (registry w)) ++ map flagKey fs) ->
  registerFlags fs w
  = (Done tt,
     {| registry :=
          {| commands := commands (registry w);
             flags := flags (registry w) ++ fs;
             commandsTree := commandsTree (registry w) |};
        stderr := stderr w; trace := trace w |}).
Proof.
  induction fs as [|f fs IH]; intros w Hnd.
  - destruct w as [[cs fl t] err tr]. cbn. rewrite app_nil_r. reflexivity.
  - cbn [registerFlags]. unfold bind at 1.
    rewrite registerFlag_fresh.
    + rewrite IH.
      * cbn. rewrite <- app_assoc. reflexivity.
      * cbn. rewrite map_app, <- app_assoc. exact Hnd.
    + destruct (hasFlag (FlagName f) (FlagScope f) (registry w)) eqn:E;
        [|reflexivity].
      apply hasFlag_In in E. cbn [map] in Hnd.
      apply List.NoDup_remove_2 in Hnd. exfalso. apply Hnd.
      apply in_or_app. left. exact E.
Qed.

Lemma registerFlags_Done_inv (fs : list Flag) : forall w w',
  registerFlags fs w = (Done tt, w') ->
  List.NoDup (map flagKey fs)
  /\ (forall f, In f fs -> ~ In (flagKey f) (map flagKey (flags (registry w))))
  /\ w' = {| registry :=
               {| commands := commands (registry w);
                  flags := flags (registry w) ++ fs;
                  commandsTree := commandsTree (registry w) |};
             stderr := stderr w; trace := trace w |}.
Proof.
  induction fs as [|f fs IH]; intros w w' H.
  - cbn in H. injection H as <-. split; [constructor|]. split; [intros f []|].
    destruct w as [[cs fl t] err tr]. cbn. rewrite app_nil_r. reflexivity.
  - cbn [registerFlags] in H. apply bind_Done_inv in H.
    destruct H as [[] [w1 [H1 H2]]].
    destruct (hasFlag (FlagName f) (FlagScope f) (registry w)) eqn:E.
    { rewrite (registerFlag_exists _ _ E) in H1. discriminate. }
    rewrite (registerFlag_fresh _ _ E) in H1. injection H1 as <-.
    apply IH in H2. cbn [registry commands flags commandsTree stderr trace] in H2.
    destruct H2 as [Hnd [Hnew ->]]. split; [|split].
    + cbn [map]. constructor; [|exact Hnd].
      intros Hin. apply in_map_iff in Hin. destruct Hin as [f' [Hk Hf']].
      apply (Hnew f' Hf'). rewrite map_app. apply in_or_app. right.
      left. symmetry. exact Hk.
    + intros f' [<-|Hf'].
      * intros Hin. apply hasFlag_In in Hin. congruence.
      * intros Hin. apply (Hnew f' Hf'). rewrite map_app. apply in_or_app.
        left. exact Hin.
    + rewrite <- app_assoc. reflexivity.
Qed.

(** [registerApp] is the registration of its commands, then of its flags,
    then the descriptor over the registry that results. *)
Lemma registerApp_sequence (d : Decls) (w : World) :
  registerApp d w
  = bind (registerAll (declCommands d))
         (fun _ => bind (registerFlags (declFlags d))
                        (fun _ => bind getRegistry
                                       (fun r => ret {| AppName := "minio-xl";
                                                        HideVersion := true;
                                                        Author := "Minio.io";
                                                        AppUsage := "Minio Cloud Storage";
                                                        AppFlags := flags r;
                                                        AppCommands := commands r;
                                                        AppCommandNotFound := CommandNotFound;
                                                        ExtraInfo := None |}))) w.
Proof.
  unfold registerApp, declCommands, declFlags. cbn [registerAll registerFlags].
  unfold bind, ret.
  repeat match goal with
         | |- context [registerCommand ?c ?w0] =>
             destruct (registerCommand c w0) as [[[]|?|?|] ?]; try reflexivity
         | |- context [registerFlag ?f ?w0] =>
             destruct (registerFlag f w0) as [[[]|?|?|] ?]; try reflexivity
         end.
Qed.

Lemma registerApp_Done (d : Decls) (err : list string) (tr : list Event)
      (app : App) (w' : World) :
  registerApp d {| registry := emptyRegistry; stderr := err; trace := tr |}
  = (Done app, w')
  <-> List.NoDup (map Name (declCommands d))
      /\ List.NoDup (map flagKey (declFlags d))
      /\ app = appOf d
      /\ w' = {| registry := registryOf d; stderr := err; trace := tr |}.
Proof.
  rewrite registerApp_sequence. split.
  - intros H. apply bind_Done_inv in H. destruct H as [[] [w1 [H1 H]]].
    apply registerAll_Done_inv in H1. destruct H1 as [Hc [_ ->]].
    apply bind_Done_inv in H. destruct H as [[] [w2 [H2 H]]].
    apply registerFlags_Done_inv in H2. destruct H2 as [Hf [_ ->]].
    cbn in H. injection H as <- <-.
    split; [exact Hc|]. split; [exact Hf|]. split; reflexivity.
  - intros [Hc [Hf [-> ->]]]. unfold bind at 1.
    rewrite registerAll_run by exact Hc. unfold bind at 1.
    rewrite registerFlags_run by exact Hf. reflexivity.
Qed.

(** X9. From an empty registry, [registerApp] returns normally exactly when
    the names of its four commands are pairwise distinct and so are the
    names of its eight global flags; the descriptor it returns then lists
    the commands and the flags in source order, and the registry holds the
    same lists and the trie of the four names, with the error stream and
    the trace untouched. *)
Theorem registerApp_succeeds_iff (d : Decls) (err : list string)
        (tr : list Event) (app : App) (w' : World) :
  registerApp d {| registry := emptyRegistry; stderr := err; trace := tr |}
  = (Done app, w')
  <-> List.NoDup (map Name (declCommands d))
      /\ List.NoDup (map flagKey (declFlags d))
      /\ app = appOf d
      /\ w' = {| registry := registryOf d; stderr := err; trace := tr |}.
Proof. apply registerApp_Done. Qed.

(** ** The program up to the argument parser *)

Section TrieDistinct.
Context {V : Type}.
Implicit Types (n m : trie.Node V) (cs : list (ascii * trie.Node V)).

Lemma Find_child (t : option V) cs (c : ascii) m (k : string) :
  List.NoDup (map fst cs) -> In (c, m) cs ->
  trie.Find (String c k) (trie.mkNode t cs) = trie.Find k m.
Proof.
  intros Hnd Hin. unfold trie.Find. cbn [trie.findNode trie.children].
  rewrite (In_lookupChild _ _ _ Hnd Hin). reflexivity.
Qed.

(** A traversal lists no value twice when the values stored are given by an
    injective function of their keys. *)
Lemma Walk_NoDup : forall n (g : string -> V),
  (forall a b, g a = g b -> a = b) ->
  trie.wf n ->
  (forall k v, trie.Find k n = Some v -> v = g k) ->
  List.NoDup (trie.Walk n).
Proof.
  induction n as [t cs IH] using Node_children_ind. intros g Hinj Hwf Hval.
  destruct (proj1 (wf_mkNode _ _) Hwf) as [Hnd Hall].
  assert (Hchild : forall c m, In (c, m) cs ->
                     forall k v, trie.Find k m = Some v -> v = g (String c k)).
  { intros c m Hin k v Hk. apply Hval. rewrite (Find_child t cs c m k Hnd Hin).
    exact Hk. }
  assert (Hall_g : forall v, In v (trie.walkAll cs) ->
                     exists c m k, In (c, m) cs /\ v = g (String c k)).
  { intros v Hv. apply walkAll_In in Hv. destruct Hv as [c [m [Hin Hv]]].
    apply (Walk_Find m v (wfAll_In _ _ _ Hall Hin)) in Hv. destruct Hv as [k Hk].
    exists c, m, k. split; [exact Hin|]. exact (Hchild c m Hin k v Hk). }
  rewrite Walk_mkNode. apply List.NoDup_app.
  - destruct t; repeat constructor. intros [].
  - clear Hval Hwf Hall_g.
    induction cs as [|[c m] cs IHcs]; cbn [trie.walkAll]; [constructor|].
    inversion IH as [|? ? Hm IHtail]; subst.
    cbn [map fst] in Hnd. inversion Hnd as [|? ? Hnotin Hnd']; subst.
    destruct Hall as [Hwfm Hall'].
    assert (Hrest : forall c' m', In (c', m') cs ->
                      forall k v, trie.Find k m' = Some v -> v = g (String c' k)).
    { intros c' m' Hin. apply Hchild. right. exact Hin. }
    apply List.NoDup_app.
    + apply (Hm (fun k => g (String c k))).
      * intros a b Hab. apply Hinj in Hab. congruence.
      * exact Hwfm.
      * apply Hchild. left. reflexivity.
    + apply IHcs; assumption.
    + intros v Hv1 Hv2.
      apply (Walk_Find m v Hwfm) in Hv1. destruct Hv1 as [k Hk].
      apply (Hchild c m (or_introl eq_refl)) in Hk.
      apply walkAll_In in Hv2. destruct Hv2 as [c' [m' [Hin' Hv']]].
      apply (Walk_Find m' v (wfAll_In _ _ _ Hall' Hin')) in Hv'.
      destruct Hv' as [k' Hk']. apply (Hrest c' m' Hin') in Hk'.
      rewrite Hk in Hk'. apply Hinj in Hk'. injection Hk' as -> _.
      apply Hnotin. apply (in_map fst) in Hin'. exact Hin'.
  - intros v Hv1 Hv2. destruct t as [x|]; [|destruct Hv1].
    destruct Hv1 as [<-|[]].
    assert (Hx : x = g "") by (apply Hval; reflexivity).
    destruct (Hall_g x Hv2) as [c [m [k [_ Hg]]]].
    rewrite Hx in Hg. apply Hinj in Hg. discriminate.
Qed.

End TrieDistinct.

Lemma prefix_extends (p s : string) :
  String.prefix p s = true <-> exists k, s = p +:+ k.
Proof.
  revert s. induction p as [|c p IH]; intros s.
  - split; [|destruct s; reflexivity]. intros _. exists s. reflexivity.
  - destruct s as [|c' s]; cbn [String.prefix].
    + split; [discriminate|]. intros [k Hk]. discriminate.
    + destruct (ascii_dec c c') as [->|Hne].
      * rewrite IH. split; intros [k Hk]; exists k.
        -- change (String c' p +:+ k) with (String c' (p +:+ k)). congruence.
        -- change (String c' p +:+ k) with (String c' (p +:+ k)) in Hk. congruence.
      * split; [discriminate|]. intros [k Hk].
        change (String c p +:+ k) with (String c (p +:+ k)) in Hk. congruence.
Qed.

Lemma Find_insertNames (names : list string) (k : string) (v : iface) :
  trie.Find k (insertNames names trie.NewTrie) = Some v ->
  In k names /\ v = IString k.
Proof.
  intros H. destruct (in_dec string_dec k names) as [Hin|Hout].
  - rewrite (Find_insertNames_member _ _ _ Hin) in H. split; congruence.
  - rewrite (Find_insertNames_other _ _ _ Hout), Find_NewTrie in H. discriminate.
Qed.

(** On the trie built from distinct names, the closest commands of a token
    are the names that begin with the token, each once. *)
Lemma closest_insertNames (names : list string) (token : string) :
  List.NoDup names ->
  exists l,
    findClosestCommands (insertNames names trie.NewTrie) token = Some l
    /\ Permutation l (List.filter (String.prefix token) names).
Proof.
  intros Hnames.
  destruct (findClosestCommands_total (insertNames names trie.NewTrie) token)
    as [l [Hm Hl]].
  { apply stringsOnly_insertNames. reflexivity. }
  exists l. split; [exact Hl|].
  assert (Hwf : trie.wf (insertNames names (@trie.NewTrie iface)))
    by (apply wf_insertNames, wf_NewTrie).
  apply Stdlib.Sorting.Permutation.NoDup_Permutation.
  - apply (List.NoDup_map_inv IString). rewrite <- Hm. unfold trie.PrefixMatch.
    destruct (trie.findNode token (insertNames names trie.NewTrie)) as [m|] eqn:E;
      [|constructor].
    apply (Walk_NoDup m (fun k => IString (token +:+ k))).
    + intros a b [= Hab]. apply (String.app_inj token) in Hab. exact Hab.
    + apply (findNode_wf _ _ _ Hwf E).
    + intros k v Hk.
      assert (Hf : trie.Find (token +:+ k) (insertNames names trie.NewTrie) = Some v).
      { unfold trie.Find in *. rewrite findNode_app, E. exact Hk. }
      apply Find_insertNames in Hf. apply Hf.
  - apply List.NoDup_filter. exact Hnames.
  - intros s. rewrite List.filter_In, prefix_extends. split.
    + intros Hs.
      assert (Hv : In (IString s)
                      (trie.PrefixMatch token (insertNames names trie.NewTrie))).
      { rewrite Hm. apply in_map. exact Hs. }
      apply PrefixMatch_insertNames in Hv. destruct Hv as [k [Hin Heq]].
      injection Heq as ->. split; [exact Hin|]. exists k. reflexivity.
    + intros [Hin [k ->]].
      assert (Hv : In (IString (token +:+ k))
                      (trie.PrefixMatch token (insertNames names trie.NewTrie))).
      { apply PrefixMatch_insertNames. exists k. split; [exact Hin|reflexivity]. }
      rewrite Hm in Hv. apply in_map_iff in Hv. destruct Hv as [x [Hx Hin']].
      injection Hx as ->. exact Hin'.
Qed.

Lemma program_Done_iff (humanizeBytes : Z -> string) (d : Decls) (e : Env)
      (app : App) (w : World) :
  program humanizeBytes d e initialWorld = (Done app, w)
  <-> (exists u, userCurrent e = Ok u) /\ euid e <> 0
      /\ runtimeSupported e = true
      /\ List.NoDup (map Name (declCommands d))
      /\ List.NoDup (map flagKey (declFlags d))
      /\ app = startedApp humanizeBytes d
      /\ w = startedWorld d.
Proof.
  unfold program, main. split.
  - intros H. apply bind_Done_inv in H. destruct H as [[] [w1 [H1 H]]].
    apply init_Done_iff in H1. destruct H1 as [Hu [He [Hr ->]]].
    apply bind_Done_inv in H. destruct H as [app0 [w2 [H2 H]]].
    apply (proj1 (registerApp_Done d [] initSteps app0 w2)) in H2.
    destruct H2 as [Hc [Hf [-> ->]]]. cbn in H. injection H as <- <-.
    repeat (split; [assumption|]). split; reflexivity.
  - intros [Hu [He [Hr [Hc [Hf [-> ->]]]]]].
    unfold bind at 1.
    rewrite (proj2 (init_Done_iff e initialWorld (afterInit initialWorld)))
      by (repeat (split; [assumption|]); reflexivity).
    change (afterInit initialWorld)
      with {| registry := emptyRegistry; stderr := []; trace := initSteps |}.
    unfold bind at 1.
    rewrite (proj2 (registerApp_Done d [] initSteps (appOf d)
                      {| registry := registryOf d; stderr := [];
                         trace := initSteps |}))
      by (repeat (split; [assumption|]); split; reflexivity).
    reflexivity.
Qed.


(** X10. A run of the program reaches the hand-over to the argument parser
    exactly when [init] passes (a user, not root, a supported runtime) and
    the declared command names and flag names are pairwise distinct; the
    descriptor handed over then has the commands and flags in source
    order, the not-found handler and the diagnostics hook, and nothing has
    been written to the error stream. *)
Theorem program_starts_iff (humanizeBytes : Z -> string) (d : Decls) (e : Env)
        (app : App) (w : World) :
  program humanizeBytes d e initialWorld = (Done app, w)
  <-> (exists u, userCurrent e = Ok u) /\ euid e <> 0
      /\ runtimeSupported e = true
      /\ List.NoDup (map Name (declCommands d))
      /\ List.NoDup (map flagKey (declFlags d))
      /\ app = startedApp humanizeBytes d
      /\ w = startedWorld d.
Proof. apply program_Done_iff. Qed.

(** X11. After a run that reaches the argument parser, the not-found
    handler of the descriptor ends the process, for every token, with the
    fatal status and the message built from the registered command names
    that begin with the token, each of them once. *)
Theorem program_suggestions (humanizeBytes : Z -> string) (d : Decls) (e : Env)
      (app : App) (w : World) (token : string) :
  program humanizeBytes d e initialWorld = (Done app, w) ->
  exists l,
    AppCommandNotFound app token w
    = (Exited fatalExitCode, afterFatal w (notFoundMessage token l +:+ nl))
    /\ Permutation l (List.filter (String.prefix token)
                                  (map Name (declCommands d))).
Proof.
  intros H. apply program_Done_iff in H.
  destruct H as [_ [_ [_ [Hc [_ [-> ->]]]]]].
  destruct (closest_insertNames (map Name (declCommands d)) token Hc)
    as [l [Hl Hp]].
  exists l. split; [|exact Hp].
  cbn [startedApp AppCommandNotFound]. apply CommandNotFound_run. exact Hl.
Qed.


Lemma program_suggestions_witness :
  program plainBytes exampleDecls exampleEnv initialWorld
  = (Done (startedApp plainBytes exampleDecls), startedWorld exampleDecls)
  /\ exists l,
       AppCommandNotFound (startedApp plainBytes exampleDecls) "ser"
                          (startedWorld exampleDecls)
       = (Exited fatalExitCode,
          afterFatal (startedWorld exampleDecls)
                     (notFoundMessage "ser" l +:+ nl))
       /\ Permutation l ["server"].
Proof.
  assert (H : program plainBytes exampleDecls exampleEnv initialWorld
              = (Done (startedApp plainBytes exampleDecls),
                 startedWorld exampleDecls)) by reflexivity.
  split; [exact H|].
  exact (program_suggestions plainBytes exampleDecls exampleEnv _ _ "ser" H).
Defined.
